(** * LSB steganography on the red channel: the codec of [script.js]

    The page hides a text message in the least significant bit of the red
    channel of the pixels of a canvas image, and reads it back.  This file
    embeds the bit-level part of [src/script.js] -- [stringToBinary],
    [binaryToString], [encodeMessage] and [decodeMessage] -- and proves the
    properties its specification states about it.

    Conventions of the embedding.
    - A JavaScript string is the list of its UTF-16 code units ([jsstring]);
      [str.length] is the length of that list.
    - A binary string, a JavaScript string over the two characters '0' and
      '1', is a list of booleans ([bits]): [false] is '0', [true] is '1'.
    - [imageData.data] is a [Uint8ClampedArray]: a list of numbers below 256,
      four per pixel (red, green, blue, alpha); a store clamps to 255 and an
      index out of range is neither read nor written.
    - The canvas is a bitmap in the page state; [putImageData] and
      [getImageData] write and read it with premultiplied alpha, so only
      opaque pixels are sure to come back as they were put.
    - Loops whose counter is advanced by the loop header run on fuel; a loop
      out of fuel yields [None], and the fuel handed over by the callers is
      shown to be enough. *)

From Stdlib Require Import String Ascii NArith ZArith Lia Zify ZifyNat ZifyN.
From stdpp Require Import base option list numbers pretty.

Local Open Scope nat_scope.

(** ** JavaScript values *)

Abbreviation jsstring := (list N).
Abbreviation bits := (list bool).

(** The code units of an ASCII literal of the source. *)
Definition codes (s : string) : jsstring :=
  map N_of_ascii (list_ascii_of_string s).

(** [n.toString(2)] for a non-negative integer: the binary digits, most
    significant first, no leading zero ("0" for zero). *)
Fixpoint pos_digits (p : positive) (acc : bits) : bits :=
  match p with
  | xH => true :: acc
  | xO q => pos_digits q (false :: acc)
  | xI q => pos_digits q (true :: acc)
  end.

Definition toString2 (n : N) : bits :=
  match n with
  | N0 => [false]
  | Npos p => pos_digits p []
  end.

(** [s.padStart(targetLength, pad)] with a one-character [pad]: nothing is
    added (and nothing removed) when [s] is already long enough. *)
Definition padStart {A} (s : list A) (targetLength : nat) (pad : A) : list A :=
  replicate (targetLength - length s) pad ++ s.

(** [s.substr(start, len)], [s.slice(start)] and [s.substring(0, stop)] for
    indices inside the string. *)
Definition substr {A} (s : list A) (start len : nat) : list A :=
  take len (drop start s).
Definition slice {A} (s : list A) (start : nat) : list A := drop start s.
Definition substring0 {A} (s : list A) (stop : nat) : list A := take stop s.

(** [parseInt(byte, 2)] on a non-empty binary string. *)
Definition parseInt2 (byte : bits) : N :=
  fold_left (fun acc (b : bool) => (2 * acc + (if b then 1 else 0))%N) byte 0%N.

(** [String.fromCharCode(n)]: one code unit, [n] modulo 2^16. *)
Definition fromCharCode (n : N) : N := (n mod 65536)%N.

(** [s.endsWith(t)]. *)
Definition endsWith (s t : jsstring) : bool :=
  if decide (length s < length t) then false
  else bool_decide (drop (length s - length t) s = t).

(** ** The text codec *)

(** [stringToBinary]: the loop over [i], with the accumulator [binary]. *)
Fixpoint stringToBinary_loop (str : jsstring) (binary : bits) : bits :=
  match str with
  | [] => binary
  | charCode :: rest =>
      let charBinary := toString2 charCode in
      let charBinary := padStart charBinary 8 false in
      stringToBinary_loop rest (binary ++ charBinary)
  end.

Definition stringToBinary (str : jsstring) : bits :=
  stringToBinary_loop str [].

(** [binaryToString]: the loop [for (i = 0; i < binary.length; i += 8)]. *)
Fixpoint binaryToString_loop (fuel : nat) (binary : bits) (i : nat)
    (str : jsstring) : option jsstring :=
  match fuel with
  | 0 => None
  | S fuel' =>
      if decide (i < length binary) then
        let byte := substr binary i 8 in
        if decide (length byte ≠ 8) then Some str
        else binaryToString_loop fuel' binary (i + 8)
               (str ++ [fromCharCode (parseInt2 byte)])
      else Some str
  end.

Definition binaryToString (binary : bits) : option jsstring :=
  binaryToString_loop (S (length binary)) binary 0 [].

(** ** The page state *)

(** What a call does besides updating the state, in order: the dialogs and
    console lines it raises, the canvas calls, and the calls of
    [stringToBinary]. *)
Inductive Event :=
  | alert (text : string)
  | console_log (text : string)
  | call_stringToBinary (str : jsstring)
  | putImageData
  | getImageData.

Record ImageData := { width : nat; height : nat; data : list N }.

(** The globals and the DOM values the two handlers use.  [imageData] is
    declared without a value: [None] until an image was generated or
    uploaded.  [canvas_bitmap] is what the canvas holds: four values per
    pixel, row by row, the colours premultiplied by alpha. *)
Record World := {
  imageData : option ImageData;
  canvas_width : nat;
  canvas_height : nat;
  canvas_bitmap : list N;
  secretMessage : jsstring;      (* secretMessageInput.value *)
  decodedMessage : jsstring;     (* decodedMessageOutput.textContent *)
  trace : list Event
}.

Definition emit (e : Event) (w : World) : World :=
  {| imageData := imageData w; canvas_width := canvas_width w;
     canvas_height := canvas_height w; canvas_bitmap := canvas_bitmap w;
     secretMessage := secretMessage w;
     decodedMessage := decodedMessage w; trace := trace w ++ [e] |}.

Definition set_imageData (img : ImageData) (w : World) : World :=
  {| imageData := Some img; canvas_width := canvas_width w;
     canvas_height := canvas_height w; canvas_bitmap := canvas_bitmap w;
     secretMessage := secretMessage w;
     decodedMessage := decodedMessage w; trace := trace w |}.

Definition set_canvas_bitmap (bitmap : list N) (w : World) : World :=
  {| imageData := imageData w; canvas_width := canvas_width w;
     canvas_height := canvas_height w; canvas_bitmap := bitmap;
     secretMessage := secretMessage w;
     decodedMessage := decodedMessage w; trace := trace w |}.

Definition set_textContent (text : jsstring) (w : World) : World :=
  {| imageData := imageData w; canvas_width := canvas_width w;
     canvas_height := canvas_height w; canvas_bitmap := canvas_bitmap w;
     secretMessage := secretMessage w;
     decodedMessage := text; trace := trace w |}.

Definition delimiter : jsstring := codes "|||END|||".

(** Element read and store of the [Uint8ClampedArray].  A read out of range
    is [undefined], which the bit operators take as 0; a store clamps the
    value and does nothing out of range. *)
Definition read (data : list N) (i : nat) : N := default 0%N (data !! i).
Definition store (data : list N) (i : nat) (v : N) : list N :=
  <[i := N.min v 255]> data.

(** ** The canvas

    A 2D canvas keeps its pixels with the colours premultiplied by alpha,
    here rounded to the nearest value; reading them back divides by alpha
    again.  A pixel of alpha 255 comes back as it was put, a pixel of alpha 0
    comes back as four zeros, and the colours of a pixel in between come back
    changed when they are not multiples the storage can hold. *)

Definition premultiply (c a : N) : N := ((c * a + 127) / 255)%N.

Definition unpremultiply (p a : N) : N :=
  if (a =? 0)%N then 0%N else N.min ((p * 255 + a / 2) / a) 255.

(** [ctx.putImageData(img, 0, 0)] on a canvas of [cw] x [ch] pixels: the
    part of the image inside the canvas replaces the pixels there, the other
    pixels stay. *)
Definition canvas_put (img : ImageData) (cw ch : nat) (bitmap : list N) : list N :=
  (fun j =>
     let x := (j / 4) mod cw in
     let y := (j / 4) / cw in
     if decide (x < width img ∧ y < height img) then
       let s := 4 * (y * width img + x) in
       let a := read (data img) (s + 3) in
       if decide (j mod 4 = 3) then a
       else premultiply (read (data img) (s + j mod 4)) a
     else read bitmap j) <$> seq 0 (4 * (cw * ch)).

(** [ctx.getImageData(0, 0, cw, ch).data]: the whole canvas, as bytes, the
    colours no longer premultiplied. *)
Definition canvas_get (cw ch : nat) (bitmap : list N) : list N :=
  (fun j =>
     let a := N.min (read bitmap (4 * (j / 4) + 3)) 255 in
     if decide (j mod 4 = 3) then a else unpremultiply (read bitmap j) a)
  <$> seq 0 (4 * (cw * ch)).

(** ** Embedding *)

(** The return statement a call of [encodeMessage] ends at. *)
Inductive EmbedOutcome :=
  | MissingBuffer      (* no image yet *)
  | EmptyInput         (* no message text *)
  | CapacityExceeded   (* more bits than pixels *)
  | Embedded.

(** The loop [for (i = 0; i < data.length; i += 4)] of [encodeMessage]. *)
Fixpoint encode_loop (fuel : nat) (binaryMessage : bits) (data : list N)
    (i binaryIndex : nat) : option (list N) :=
  match fuel with
  | 0 => None
  | S fuel' =>
      if decide (i < length data) then
        if decide (length binaryMessage ≤ binaryIndex) then Some data
        else
          let data :=
            match binaryMessage !! binaryIndex with
            | Some false => store data i (N.land (read data i) 254)
            | _ => store data i (N.lor (read data i) 1)
            end in
          encode_loop fuel' binaryMessage data (i + 4) (binaryIndex + 1)
      else Some data
  end.

(** [encodeMessage].  The loop changes [imageData.data] in place, so
    [putImageData] receives the image with the data the loop leaves; the new
    [imageData] is the whole canvas read back. *)
Definition encodeMessage (w : World) : option (EmbedOutcome * World) :=
  match imageData w with
  | None => Some (MissingBuffer, emit (alert "Please generate an image first!") w)
  | Some img =>
      let message := secretMessage w in
      if decide (message = []) then
        Some (EmptyInput, emit (alert "Please enter a message to encode!") w)
      else
        let messageWithDelimiter := message ++ delimiter in
        let binaryMessage := stringToBinary messageWithDelimiter in
        let w := emit (call_stringToBinary messageWithDelimiter) w in
        let pixelCount := canvas_width w * canvas_height w in
        if decide (pixelCount < length binaryMessage) then
          Some (CapacityExceeded,
                emit (alert "Message is too large for this image size!") w)
        else
          data' ← encode_loop (S (length (data img))) binaryMessage (data img) 0 0;
          let w := emit putImageData w in
          let w := set_canvas_bitmap
                     (canvas_put {| width := width img; height := height img;
                                    data := data' |}
                                 (canvas_width w) (canvas_height w)
                                 (canvas_bitmap w)) w in
          let w := emit getImageData w in
          let w := set_imageData
                     {| width := canvas_width w; height := canvas_height w;
                        data := canvas_get (canvas_width w) (canvas_height w)
                                           (canvas_bitmap w) |} w in
          Some (Embedded,
                emit (alert ("Message encoded successfully! Used "
                             +:+ pretty (length binaryMessage)
                             +:+ " bits out of " +:+ pretty pixelCount
                             +:+ " available pixels.")) w)
  end.

(** ** Extraction *)

(** The return statement a call of [decodeMessage] ends at; [NoOutput] is
    the end of the function body, reached when the loop runs zero times. *)
Inductive ExtractOutcome :=
  | NoBuffer
  | Found (message : jsstring)
  | NotFound (extractedText : jsstring)
  | Empty
  | NoOutput.

(** The number [lsb], 0 or 1, appended to a string. *)
Definition digit (lsb : N) : bits := [negb (lsb =? 0)%N].

(** The loop [for (i = 0; i < data.length; i += 4)] of [decodeMessage]. *)
Fixpoint decode_loop (fuel : nat) (data : list N) (i : nat)
    (binaryMessage : bits) (extractedText : jsstring) : option ExtractOutcome :=
  match fuel with
  | 0 => None
  | S fuel' =>
      if decide (i < length data) then
        let lsb := N.land (read data i) 1 in
        let binaryMessage := binaryMessage ++ digit lsb in
        let safety_check (extractedText : jsstring) :=
          if decide (Z.of_nat (length data) - 4 ≤ Z.of_nat i)%Z then
            if decide (0 < length extractedText) then Some (NotFound extractedText)
            else Some Empty
          else decode_loop fuel' data (i + 4) binaryMessage extractedText in
        if decide (length binaryMessage mod 8 = 0) then
          let byteStr := slice binaryMessage (length binaryMessage - 8) in
          let asciiCode := parseInt2 byteStr in
          let char := fromCharCode asciiCode in
          let extractedText := extractedText ++ [char] in
          if endsWith extractedText delimiter then
            let message :=
              substring0 extractedText (length extractedText - length delimiter) in
            Some (Found message)
          else safety_check extractedText
        else safety_check extractedText
      else Some NoOutput
  end.

Definition decodeMessage (w : World) : option (ExtractOutcome * World) :=
  match imageData w with
  | None =>
      Some (NoBuffer, emit (alert "No image to decode! Please upload an image first.") w)
  | Some img =>
      r ← decode_loop (S (length (data img))) (data img) 0 [] [];
      match r with
      | Found message =>
          let w := set_textContent message w in
          let w := emit (console_log "Message decoded successfully!") w in
          Some (r, emit (alert "Message successfully decoded!") w)
      | NotFound extractedText =>
          let w := set_textContent
                     (codes "Partial message (no delimiter found): " ++ extractedText) w in
          Some (r, emit (alert "Warning: No end marker found. The image might not contain a hidden message or the message format is corrupted.") w)
      | Empty =>
          let w := set_textContent (codes "No readable message could be decoded.") w in
          Some (r, emit (alert "No hidden message found or message format is corrupted.") w)
      | NoBuffer | NoOutput => Some (r, w)
      end
  end.

(** A world holding the buffer [d] of a [wd] x [ht] canvas that shows it,
    and the message [m] in the input field. *)
Definition world_of (wd ht : nat) (d : list N) (m : jsstring) : World :=
  {| imageData := Some {| width := wd; height := ht; data := d |};
     canvas_width := wd; canvas_height := ht;
     canvas_bitmap := canvas_put {| width := wd; height := ht; data := d |} wd ht [];
     secretMessage := m; decodedMessage := []; trace := [] |}.

(** ** Reference definitions

    The functions below are not in the source.  They say, in closed form,
    what the specification expects of the loops above; the theorems relate
    the two. *)

(** The 8-bit binary representation of [c], most significant bit first,
    zero-padded. *)
Definition byte8 (c : N) : bits :=
  map (N.testbit c) [7; 6; 5; 4; 3; 2; 1; 0]%N.

(** The bits [stringToBinary] emits for one character. *)
Definition char_bits (c : N) : bits := padStart (toString2 c) 8 false.

(** The text of the first [n] complete groups of 8 bits of [b]. *)
Fixpoint bytes_text (n : nat) (b : bits) : jsstring :=
  match n with
  | 0 => []
  | S n' => fromCharCode (parseInt2 (take 8 b)) :: bytes_text n' (drop 8 b)
  end.

(** The text of all complete groups of 8 bits of [b]. *)
Definition text_of (b : bits) : jsstring := bytes_text (length b / 8) b.

(** The pixels of a buffer: one per started group of four channel values. *)
Definition pixels (data : list N) : nat := (length data + 3) / 4.

(** The least significant bits of the red channel, in pixel order. *)
Definition red_lsbs (data : list N) : bits :=
  (fun k => N.testbit (read data (4 * k)) 0) <$> seq 0 (pixels data).

(** The search for the delimiter over the decoded characters [rest], with
    [extractedText] accumulated so far: [find_end] after every character. *)
Fixpoint scan (extractedText rest : jsstring) : ExtractOutcome :=
  match rest with
  | [] =>
      if decide (0 < length extractedText) then NotFound extractedText else Empty
  | char :: rest' =>
      let extractedText := extractedText ++ [char] in
      if endsWith extractedText delimiter then
        Found (take (length extractedText - length delimiter) extractedText)
      else scan extractedText rest'
  end.

(** The channel value with its lowest bit replaced by [b]. *)
Definition set_lsb (v : N) (b : bool) : N :=
  if b then N.lor v 1 else N.land v 254.

(** The buffer with the bit sequence [bm] in the red channel of its first
    pixels: the value at index [4 * k] takes bit [k], as long as there is
    one. *)
Definition embed_spec (bm : bits) (data : list N) : list N :=
  imap (fun j v =>
          if decide (j mod 4 = 0) then
            match bm !! (j / 4) with
            | Some b => N.min (set_lsb v b) 255
            | None => v
            end
          else v) data.

(** Channel values and characters that fit a byte. *)
Definition byte_values (l : list N) : Prop := Forall (fun v => (v < 256)%N) l.

(** No proper prefix of the framed message [M ++ delimiter] ends with the
    delimiter: the delimiter occurs in it at the end only. *)
Definition delimiter_at_end_only (M : jsstring) : bool :=
  forallb (fun k => negb (endsWith (take k (M ++ delimiter)) delimiter))
          (seq 0 (length M + length delimiter)).

(** Embedding, then extraction from the buffer it leaves: the two outcomes
    and the text shown at the end. *)
Definition embed_then_extract (w : World)
    : option (EmbedOutcome * ExtractOutcome * jsstring) :=
  '(o, w1) ← encodeMessage w;
  '(r, w2) ← decodeMessage w1;
  Some (o, r, decodedMessage w2).

(** The user typing [m] into the message field. *)
Definition set_secretMessage (m : jsstring) (w : World) : World :=
  {| imageData := imageData w; canvas_width := canvas_width w;
     canvas_height := canvas_height w; canvas_bitmap := canvas_bitmap w;
     secretMessage := m;
     decodedMessage := decodedMessage w; trace := trace w |}.

(** The buffer of the page, when there is one, is an image of the whole
    canvas: its dimensions, four values below 256 per pixel. *)
Definition buffer_ok (w : World) : Prop :=
  ∀ img, imageData w = Some img →
    width img = canvas_width w ∧ height img = canvas_height w
    ∧ length (data img) = 4 * (canvas_width w * canvas_height w)
    ∧ byte_values (data img).

(** What [decodeMessage] finds in a buffer, in closed form. *)
Definition extraction (buffer : option ImageData) : ExtractOutcome :=
  match buffer with
  | None => NoBuffer
  | Some img =>
      if decide (data img = []) then NoOutput
      else scan [] (text_of (red_lsbs (data img)))
  end.

(** Every pixel of the buffer has alpha 255. *)
Definition opaque (data : list N) : bool :=
  forallb (fun k => (read data (4 * k + 3) =? 255)%N) (seq 0 (pixels data)).


(** A uniform buffer of [n] pixels, for examples. *)
Definition grey (n : nat) : list N := replicate (4 * n) 128%N.

Definition transparent (n : nat) : list N := replicate (4 * n) 0%N.

(** A uniform opaque buffer of [n] pixels, for examples. *)
Definition opaque_grey (n : nat) : list N :=
  concat (replicate n [128; 128; 128; 255]%N).

(** * Properties *)

Ltac Zify.zify_post_hook ::= Z.to_euclidean_division_equations.

(** ** Bytes and bits *)

Lemma forall_byte (P : N → bool) :
  forallb P (map N.of_nat (seq 0 256)) = true →
  ∀ c, (c < 256)%N → P c = true.
Proof.
  intros H c Hc. rewrite forallb_forall in H. apply H.
  apply in_map_iff. exists (N.to_nat c). split; [lia|].
  apply in_seq. lia.
Qed.

Ltac simpl_option := cbn [fmap option_fmap option_map from_option id].

Ltac by_byte_cases c Hc :=
  revert c Hc;
  match goal with
  | |- ∀ c, (c < 256)%N → @?P c =>
      intros c Hc;
      apply (bool_decide_eq_true_1 (P c));
      revert c Hc; apply forall_byte; vm_compute; reflexivity
  end.

Lemma padStart_byte c :
  (c < 256)%N → padStart (toString2 c) 8 false = byte8 c.
Proof. intros Hc. by_byte_cases c Hc. Qed.

Lemma parseInt2_byte8 c : (c < 256)%N → parseInt2 (byte8 c) = c.
Proof. intros Hc. by_byte_cases c Hc. Qed.

Lemma length_byte8 c : length (byte8 c) = 8.
Proof. reflexivity. Qed.

Lemma fromCharCode_small c : (c < 65536)%N → fromCharCode c = c.
Proof. intros Hc. unfold fromCharCode. apply N.mod_small. exact Hc. Qed.

Lemma pos_digits_app p acc : pos_digits p acc = pos_digits p [] ++ acc.
Proof.
  revert acc. induction p as [q IH|q IH|]; intros acc; simpl.
  - rewrite (IH (true :: acc)), (IH [true]), <- app_assoc. reflexivity.
  - rewrite (IH (false :: acc)), (IH [false]), <- app_assoc. reflexivity.
  - reflexivity.
Qed.

Lemma length_pos_digits p : length (pos_digits p []) = Pos.size_nat p.
Proof.
  induction p as [q IH|q IH|]; simpl; try reflexivity;
    rewrite pos_digits_app, length_app, IH; simpl; lia.
Qed.

Lemma parseInt2_snoc a (b : bool) :
  parseInt2 (a ++ [b]) = (2 * parseInt2 a + (if b then 1 else 0))%N.
Proof. unfold parseInt2. rewrite fold_left_app. reflexivity. Qed.

Lemma parseInt2_pos_digits p : parseInt2 (pos_digits p []) = Npos p.
Proof.
  induction p as [q IH|q IH|]; simpl; try reflexivity;
    rewrite pos_digits_app, parseInt2_snoc, IH; lia.
Qed.

Lemma size_nat_bounds p :
  (2 ^ N.of_nat (Pos.size_nat p) ≤ 2 * Npos p)%N ∧
  (Npos p < 2 ^ N.of_nat (Pos.size_nat p))%N.
Proof.
  induction p as [q [IH1 IH2]|q [IH1 IH2]|].
  - change (Pos.size_nat q~1) with (S (Pos.size_nat q)).
    rewrite Nat2N.inj_succ, N.pow_succ_r'. lia.
  - change (Pos.size_nat q~0) with (S (Pos.size_nat q)).
    rewrite Nat2N.inj_succ, N.pow_succ_r'. lia.
  - simpl. lia.
Qed.

(** ** [stringToBinary] in closed form *)

Lemma stringToBinary_loop_flat str binary :
  stringToBinary_loop str binary = binary ++ flat_map char_bits str.
Proof.
  revert binary. induction str as [|c rest IH]; intros binary; simpl.
  - rewrite app_nil_r. reflexivity.
  - rewrite IH, <- app_assoc. reflexivity.
Qed.

Lemma stringToBinary_flat str : stringToBinary str = flat_map char_bits str.
Proof. unfold stringToBinary. apply stringToBinary_loop_flat. Qed.

Lemma stringToBinary_app s t :
  stringToBinary (s ++ t) = stringToBinary s ++ stringToBinary t.
Proof. rewrite !stringToBinary_flat. apply flat_map_app. Qed.

Lemma stringToBinary_bytes str :
  byte_values str → stringToBinary str = flat_map byte8 str.
Proof.
  rewrite stringToBinary_flat. induction 1 as [|c rest Hc _ IH]; simpl.
  - reflexivity.
  - unfold char_bits at 1. rewrite padStart_byte, IH by exact Hc. reflexivity.
Qed.

Lemma length_flat_byte8 str : length (flat_map byte8 str) = 8 * length str.
Proof.
  induction str as [|c rest IH]; simpl; [reflexivity|].
  rewrite IH. lia.
Qed.



Lemma lookup_flat_byte8 str i c j :
  str !! i = Some c → j < 8 →
  flat_map byte8 str !! (8 * i + j) = Some (N.testbit c (N.of_nat (7 - j))).
Proof.
  revert i. induction str as [|d rest IH]; intros i Hi Hj; [done|].
  change (flat_map byte8 (d :: rest)) with (byte8 d ++ flat_map byte8 rest).
  destruct i as [|i].
  - simpl in Hi. injection Hi as ->.
    replace (8 * 0 + j) with j by lia.
    rewrite lookup_app_l by (rewrite length_byte8; lia).
    do 8 (destruct j as [|j]; [reflexivity|]). lia.
  - rewrite lookup_app_r by (rewrite length_byte8; lia).
    rewrite length_byte8.
    replace (8 * S i + j - 8) with (8 * i + j) by lia.
    apply IH; [exact Hi|exact Hj].
Qed.

(** ** [binaryToString] in closed form *)

Lemma length_bytes_text n b : length (bytes_text n b) = n.
Proof. revert b. induction n as [|n IH]; intros b; simpl; [|rewrite IH]; reflexivity. Qed.

Lemma bytes_text_lookup n b q :
  q < n →
  bytes_text n b !! q = Some (fromCharCode (parseInt2 (take 8 (drop (8 * q) b)))).
Proof.
  revert b q. induction n as [|n IH]; intros b q Hq; [lia|].
  destruct q as [|q]; simpl bytes_text.
  - reflexivity.
  - simpl lookup. rewrite IH by lia. rewrite drop_drop.
    replace (8 + 8 * q) with (8 * S q) by lia. reflexivity.
Qed.

Lemma bytes_text_take n m b :
  8 * n ≤ m → bytes_text n (take m b) = bytes_text n b.
Proof.
  revert m b. induction n as [|n IH]; intros m b Hm; [reflexivity|].
  simpl. rewrite take_take, Nat.min_l by lia.
  rewrite skipn_firstn_comm, IH by lia. reflexivity.
Qed.

Lemma bytes_text_app_bytes T n rest :
  byte_values T →
  bytes_text (length T + n) (flat_map byte8 T ++ rest) = T ++ bytes_text n rest.
Proof.
  induction 1 as [|c T Hc _ IH]; [reflexivity|].
  change (bytes_text (length (c :: T) + n) (flat_map byte8 (c :: T) ++ rest))
    with (bytes_text (S (length T + n)) ((byte8 c ++ flat_map byte8 T) ++ rest)).
  rewrite <- app_assoc. cbn [bytes_text].
  rewrite take_app_length', drop_app_length' by reflexivity.
  rewrite parseInt2_byte8 by exact Hc.
  rewrite fromCharCode_small by lia. rewrite IH. reflexivity.
Qed.

Lemma text_of_app_bytes T rest :
  byte_values T → text_of (flat_map byte8 T ++ rest) = T ++ text_of rest.
Proof.
  intros HT. unfold text_of. rewrite length_app, length_flat_byte8.
  replace ((8 * length T + length rest) / 8) with (length T + length rest / 8) by lia.
  apply bytes_text_app_bytes, HT.
Qed.

Lemma binaryToString_loop_text fuel binary i str :
  length binary - i < fuel →
  binaryToString_loop fuel binary i str = Some (str ++ text_of (drop i binary)).
Proof.
  revert i str. induction fuel as [|fuel IH]; intros i str Hfuel; [lia|].
  simpl. destruct (decide (i < length binary)) as [Hi|Hi].
  - unfold substr. rewrite length_take, length_drop.
    destruct (decide (8 `min` (length binary - i) ≠ 8)) as [Hshort|Hfull].
    + unfold text_of. rewrite length_drop.
      replace ((length binary - i) / 8) with 0 by lia.
      simpl. rewrite app_nil_r. reflexivity.
    + rewrite IH by lia. f_equal. rewrite <- app_assoc. f_equal.
      unfold text_of. rewrite !length_drop.
      replace ((length binary - i) / 8) with (S ((length binary - (i + 8)) / 8)) by lia.
      simpl. rewrite drop_drop. reflexivity.
  - rewrite drop_ge by lia. rewrite app_nil_r. reflexivity.
Qed.

Lemma binaryToString_text binary : binaryToString binary = Some (text_of binary).
Proof.
  unfold binaryToString. rewrite binaryToString_loop_text by lia.
  reflexivity.
Qed.

(** C7 (partial-byte discard).  On a bit string of length [8k + r] with
    [0 < r < 8], [binaryToString] returns a text, the same one as on the
    prefix of length [8k], of [k] characters: the [r] trailing bits are dropped
    and nothing fails. *)
Theorem binaryToString_partial_byte (binary : bits) (k r : nat) :
  length binary = 8 * k + r → 0 < r < 8 →
  ∃ text, binaryToString binary = Some text
          ∧ binaryToString (take (8 * k) binary) = Some text
          ∧ length text = k.
Proof.
  intros Hlen Hr. exists (text_of binary).
  rewrite !binaryToString_text. split; [reflexivity|].
  unfold text_of. rewrite length_take, Hlen.
  rewrite Nat.min_l by lia.
  replace ((8 * k) / 8) with k by lia.
  replace ((8 * k + r) / 8) with k by lia.
  rewrite bytes_text_take by lia. rewrite length_bytes_text. done.
Qed.

Lemma binaryToString_partial_byte_witness :
  ∃ text, binaryToString (stringToBinary (codes "Hi") ++ [true; false; true]) = Some text
          ∧ binaryToString (take (8 * 2) (stringToBinary (codes "Hi") ++ [true; false; true]))
            = Some text
          ∧ length text = 2.
Proof.
  apply (binaryToString_partial_byte _ 2 3); [reflexivity | lia].
Defined.

(** C8 (encode format).  For a string of characters with code points in
    0..255, [stringToBinary] is the concatenation, in character order, of the
    8-bit representations of the characters, most significant bit first and
    zero-padded: bit [j] of character [i] is at position [8i + j] and is bit
    [7 - j] of the code point; the output has 8 bits per character. *)
Theorem stringToBinary_format (str : jsstring) :
  byte_values str →
  stringToBinary str = flat_map byte8 str
  ∧ length (stringToBinary str) = 8 * length str
  ∧ ∀ i c j, str !! i = Some c → j < 8 →
      stringToBinary str !! (8 * i + j) = Some (N.testbit c (N.of_nat (7 - j))).
Proof.
  intros Hstr. rewrite stringToBinary_bytes by exact Hstr.
  split; [reflexivity|]. split; [apply length_flat_byte8|].
  intros i c j. apply lookup_flat_byte8.
Qed.

Lemma stringToBinary_format_witness :
  stringToBinary (codes "Hi") = flat_map byte8 (codes "Hi")
  ∧ length (stringToBinary (codes "Hi")) = 8 * length (codes "Hi")
  ∧ ∀ i c j, codes "Hi" !! i = Some c → j < 8 →
      stringToBinary (codes "Hi") !! (8 * i + j) = Some (N.testbit c (N.of_nat (7 - j))).
Proof.
  apply (stringToBinary_format (codes "Hi")). vm_compute. repeat constructor.
Defined.

(** ** Characters that do not fit a byte *)

Lemma length_padStart {A} (l : list A) n pad :
  length (padStart l n pad) = n `max` length l.
Proof. unfold padStart. rewrite length_app, length_replicate. lia. Qed.

Lemma padStart_long {A} (l : list A) n pad : n ≤ length l → padStart l n pad = l.
Proof.
  intros Hl. unfold padStart. replace (n - length l) with 0 by lia. reflexivity.
Qed.

Lemma length_char_bits_ge c : 8 ≤ length (char_bits c).
Proof. unfold char_bits. rewrite length_padStart. lia. Qed.

Lemma length_stringToBinary_ge str : 8 * length str ≤ length (stringToBinary str).
Proof.
  rewrite stringToBinary_flat. induction str as [|c rest IH]; simpl; [lia|].
  rewrite length_app. pose proof (length_char_bits_ge c). lia.
Qed.

Lemma length_toString2_wide c :
  (256 ≤ c < 65536)%N →
  8 < length (toString2 c) ≤ 16 ∧ (length (toString2 c) = 16 ↔ (32768 ≤ c)%N).
Proof.
  intros Hc. destruct c as [|p]; [lia|]. simpl toString2.
  rewrite length_pos_digits. destruct (size_nat_bounds p) as [Hlo Hhi].
  set (n := Pos.size_nat p) in *.
  assert (8 < n) as H8.
  { destruct (decide (8 < n)) as [|Hn]; [done|].
    assert (2 ^ N.of_nat n ≤ 2 ^ 8)%N by (apply N.pow_le_mono_r; lia).
    change (2 ^ 8)%N with 256%N in *. lia. }
  assert (n ≤ 16) as H16.
  { destruct (decide (n ≤ 16)) as [|Hn]; [done|].
    assert (2 ^ 17 ≤ 2 ^ N.of_nat n)%N by (apply N.pow_le_mono_r; lia).
    change (2 ^ 17)%N with 131072%N in *. lia. }
  split; [lia|]. split.
  - intros Hn. rewrite Hn in Hlo. change (2 ^ N.of_nat 16)%N with 65536%N in Hlo. lia.
  - intros Hbig. destruct (decide (n = 16)) as [|Hn]; [done|].
    assert (2 ^ N.of_nat n ≤ 2 ^ 15)%N by (apply N.pow_le_mono_r; lia).
    change (2 ^ 15)%N with 32768%N in *. lia.
Qed.

(** C10, as amended.  For a code unit [c] with [256 <= c < 65536],
    [stringToBinary] emits the full binary representation of [c], of 9 to 16
    bits and not cut to a byte; the output is longer than 8 bits per
    character, and every later character starts more than 8 times its index
    into the bit stream.  When [c] is the only character of the string above
    255, the characters after [c] start on a byte boundary, moved by one
    whole byte, exactly when [c] has 16 bits ([c >= 32768]); for a smaller
    [c] they all start off the byte boundaries. *)
Theorem stringToBinary_wide_char (pre post : jsstring) (c : N) :
  (256 ≤ c < 65536)%N →
  stringToBinary (pre ++ c :: post)
    = stringToBinary pre ++ toString2 c ++ stringToBinary post
  ∧ parseInt2 (toString2 c) = c
  ∧ 8 < length (toString2 c) ≤ 16
  ∧ 8 * length (pre ++ c :: post) < length (stringToBinary (pre ++ c :: post))
  ∧ (∀ j, j ≤ length post →
       8 * (length pre + 1 + j)
       < length (stringToBinary (pre ++ c :: take j post)))
  ∧ ((length (toString2 c) - 8) mod 8 = 0 ↔ (32768 ≤ c)%N)
  ∧ (byte_values pre → byte_values post →
     ∀ j, j ≤ length post →
       (length (stringToBinary (pre ++ c :: take j post)) mod 8 = 0
        ↔ (32768 ≤ c)%N)).
Proof.
  intros Hc. destruct (length_toString2_wide c Hc) as [Hlen H16].
  assert (∀ rest, stringToBinary (pre ++ c :: rest)
                  = stringToBinary pre ++ toString2 c ++ stringToBinary rest) as Heq.
  { intros rest. rewrite stringToBinary_app. f_equal.
    change (c :: rest) with ([c] ++ rest). rewrite stringToBinary_app. f_equal.
    rewrite stringToBinary_flat. simpl. rewrite app_nil_r.
    unfold char_bits. apply padStart_long. lia. }
  assert (∀ rest, 8 * (length pre + 1 + length rest)
                  < length (stringToBinary (pre ++ c :: rest))) as Hlong.
  { intros rest. rewrite Heq, !length_app.
    pose proof (length_stringToBinary_ge pre).
    pose proof (length_stringToBinary_ge rest). lia. }
  split; [apply Heq|]. split.
  { destruct c as [|p]; [lia|]. apply parseInt2_pos_digits. }
  split; [exact Hlen|]. split.
  { rewrite length_app. simpl length. specialize (Hlong post). lia. }
  split.
  { intros j Hj. specialize (Hlong (take j post)).
    rewrite length_take in Hlong. rewrite Nat.min_l in Hlong by lia. exact Hlong. }
  split; [rewrite <- H16; lia|].
  intros Hpre Hpost j Hj. rewrite Heq, !length_app.
  rewrite (stringToBinary_bytes pre Hpre), length_flat_byte8.
  rewrite (stringToBinary_bytes (take j post)) by (apply Forall_take, Hpost).
  rewrite length_flat_byte8. rewrite <- H16. lia.
Qed.

Lemma stringToBinary_wide_char_witness :
  stringToBinary (codes "a" ++ 300%N :: codes "b")
    = stringToBinary (codes "a") ++ toString2 300 ++ stringToBinary (codes "b")
  ∧ parseInt2 (toString2 300) = 300%N
  ∧ 8 < length (toString2 300) ≤ 16
  ∧ 8 * length (codes "a" ++ 300%N :: codes "b")
    < length (stringToBinary (codes "a" ++ 300%N :: codes "b"))
  ∧ (∀ j, j ≤ length (codes "b") →
       8 * (length (codes "a") + 1 + j)
       < length (stringToBinary (codes "a" ++ 300%N :: take j (codes "b"))))
  ∧ ((length (toString2 300) - 8) mod 8 = 0 ↔ (32768 ≤ 300)%N)
  ∧ (byte_values (codes "a") → byte_values (codes "b") →
     ∀ j, j ≤ length (codes "b") →
       (length (stringToBinary (codes "a" ++ 300%N :: take j (codes "b"))) mod 8 = 0
        ↔ (32768 ≤ 300)%N)).
Proof.
  apply (stringToBinary_wide_char (codes "a") (codes "b") 300). lia.
Defined.

(** C10, counterexample to the claim as stated.  The code unit 32768 is not
    below 256 and takes 16 bits; the character after it starts at bit 16, on
    a byte boundary, and an 8-bit reader finds it intact: its byte alignment
    is not shifted.  The same holds after two code units 2048, of 12 bits
    each: the character after them starts at bit 24. *)
Lemma wide_char_alignment_kept :
  (256 ≤ 32768)%N
  ∧ stringToBinary [32768; 97]%N = toString2 32768 ++ byte8 97
  ∧ length (toString2 32768) mod 8 = 0
  ∧ binaryToString (stringToBinary [32768; 97]%N) = Some [128; 0; 97]%N
  ∧ (256 ≤ 2048)%N
  ∧ stringToBinary [2048; 2048; 97]%N = toString2 2048 ++ toString2 2048 ++ byte8 97
  ∧ length (toString2 2048 ++ toString2 2048) mod 8 = 0
  ∧ binaryToString (stringToBinary [2048; 2048; 97]%N) = Some [128; 8; 0; 97]%N.
Proof. vm_compute. repeat split; discriminate. Qed.

(** ** The embedding loop in closed form *)

Lemma set_lsb_byte v b :
  (v < 256)%N →
  (set_lsb v b < 256)%N ∧ N.testbit (set_lsb v b) 0 = b
  ∧ (set_lsb v b / 2 = v / 2)%N
  ∧ (set_lsb v b ≤ v + 1)%N ∧ (v ≤ set_lsb v b + 1)%N.
Proof. intros Hv. destruct b; by_byte_cases v Hv. Qed.

Lemma clamp_set_lsb v b : (v < 256)%N → N.min (set_lsb v b) 255 = set_lsb v b.
Proof. intros Hv. destruct (set_lsb_byte v b Hv) as [Hlt _]. lia. Qed.

Lemma digit_land v : digit (N.land v 1) = [N.testbit v 0].
Proof. destruct v as [|[p|p|]]; reflexivity. Qed.

Lemma length_embed_spec bm data : length (embed_spec bm data) = length data.
Proof. apply length_imap. Qed.

Lemma embed_spec_lookup bm data j :
  embed_spec bm data !! j =
  (fun v => if decide (j mod 4 = 0) then
              match bm !! (j / 4) with
              | Some b => N.min (set_lsb v b) 255
              | None => v
              end
            else v) <$> data !! j.
Proof. apply list_lookup_imap. Qed.

Lemma embed_spec_nil data : embed_spec [] data = data.
Proof.
  apply list_eq. intros j. rewrite embed_spec_lookup.
  destruct (data !! j) as [v|]; [|done]. simpl_option. case_decide; done.
Qed.

Lemma embed_spec_step bm data k b :
  bm !! k = Some b → 4 * k < length data →
  store (embed_spec (take k bm) data) (4 * k)
        (set_lsb (read (embed_spec (take k bm) data) (4 * k)) b)
  = embed_spec (take (S k) bm) data.
Proof.
  intros Hb Hk. apply list_eq. intros j. unfold store.
  rewrite list_lookup_insert, length_embed_spec.
  destruct (lookup_lt_is_Some_2 data (4 * k) Hk) as [v Hv].
  destruct (decide (4 * k = j ∧ 4 * k < length data)) as [[<- _]|Hne].
  - unfold read. rewrite !embed_spec_lookup, Hv. simpl_option.
    rewrite !decide_True by lia.
    replace (4 * k / 4) with k by lia.
    rewrite lookup_take_ge by lia. rewrite lookup_take_lt by lia.
    rewrite Hb. reflexivity.
  - rewrite !embed_spec_lookup. destruct (data !! j) as [u|]; [|done].
    simpl_option. f_equal. destruct (decide (j mod 4 = 0)); [|done].
    assert (j / 4 ≠ k) by lia. rewrite !lookup_take.
    repeat case_decide; try lia; done.
Qed.

Lemma embed_spec_take_all bm data k :
  length bm ≤ k ∨ length data ≤ 4 * k →
  embed_spec (take k bm) data = embed_spec bm data.
Proof.
  intros [Hk|Hk]; [rewrite take_ge by lia; reflexivity|].
  apply list_eq. intros j. rewrite !embed_spec_lookup.
  destruct (data !! j) as [u|] eqn:Hu; [|done].
  apply lookup_lt_Some in Hu. simpl_option. f_equal.
  case_decide; [|done]. rewrite lookup_take_lt by lia. reflexivity.
Qed.

Lemma encode_loop_spec fuel bm data k :
  length data - 4 * k < fuel →
  encode_loop fuel bm (embed_spec (take k bm) data) (4 * k) k
  = Some (embed_spec bm data).
Proof.
  revert k. induction fuel as [|fuel IH]; intros k Hfuel; [lia|].
  cbn [encode_loop]. rewrite length_embed_spec.
  destruct (decide (4 * k < length data)) as [Hk|Hk].
  - destruct (decide (length bm ≤ k)) as [Hend|Hmore].
    + rewrite embed_spec_take_all by lia. reflexivity.
    + destruct (lookup_lt_is_Some_2 bm k ltac:(lia)) as [b Hb].
      rewrite Hb.
      replace (4 * k + 4) with (4 * (k + 1)) by lia.
      rewrite <- (IH (k + 1)) by lia.
      replace (k + 1) with (S k) by lia.
      rewrite <- (embed_spec_step bm data k b Hb Hk).
      destruct b; reflexivity.
  - rewrite embed_spec_take_all by lia. reflexivity.
Qed.

Lemma encode_loop_total bm data :
  encode_loop (S (length data)) bm data 0 0 = Some (embed_spec bm data).
Proof.
  pose proof (encode_loop_spec (S (length data)) bm data 0) as H.
  rewrite take_0, embed_spec_nil in H. apply H. lia.
Qed.

(** The least significant bits of the red channel, before and after. *)

Lemma length_red_lsbs data : length (red_lsbs data) = pixels data.
Proof. unfold red_lsbs. rewrite length_fmap, length_seq. reflexivity. Qed.

Lemma red_lsbs_lookup data k :
  k < pixels data →
  red_lsbs data !! k = Some (N.testbit (read data (4 * k)) 0).
Proof.
  intros Hk. unfold red_lsbs. rewrite list_lookup_fmap, lookup_seq_lt by exact Hk.
  reflexivity.
Qed.

Lemma pixels_embed_spec bm data : pixels (embed_spec bm data) = pixels data.
Proof. unfold pixels. rewrite length_embed_spec. reflexivity. Qed.

Lemma red_lsbs_embed_spec bm data :
  byte_values data → length bm ≤ pixels data →
  red_lsbs (embed_spec bm data) = bm ++ drop (length bm) (red_lsbs data).
Proof.
  intros Hdata Hbm. apply list_eq. intros k.
  destruct (decide (k < pixels data)) as [Hk|Hk].
  - rewrite red_lsbs_lookup by (rewrite pixels_embed_spec; exact Hk).
    assert (4 * k < length data) as Hlt by (unfold pixels in Hk; lia).
    destruct (lookup_lt_is_Some_2 data (4 * k) Hlt) as [v Hv].
    assert (v < 256)%N as Hbyte.
    { unfold byte_values in Hdata. rewrite Forall_lookup in Hdata. eapply Hdata, Hv. }
    unfold read. rewrite embed_spec_lookup, Hv. simpl_option.
    rewrite decide_True by lia. replace (4 * k / 4) with k by lia.
    destruct (decide (k < length bm)) as [Hin|Hout].
    + rewrite lookup_app_l by exact Hin.
      destruct (lookup_lt_is_Some_2 bm k Hin) as [b Hb]. rewrite Hb.
      rewrite clamp_set_lsb by exact Hbyte.
      destruct (set_lsb_byte v b Hbyte) as (_ & -> & _). reflexivity.
    + rewrite lookup_app_r by lia. rewrite lookup_drop.
      replace (length bm + (k - length bm)) with k by lia.
      rewrite lookup_ge_None_2 by lia.
      rewrite red_lsbs_lookup by exact Hk. unfold read. rewrite Hv. reflexivity.
  - rewrite !lookup_ge_None_2; [reflexivity| |].
    + rewrite length_app, length_drop, length_red_lsbs. lia.
    + rewrite length_red_lsbs, pixels_embed_spec. lia.
Qed.

(** ** The canvas round trip *)

Lemma byte_values_embed_spec bm data :
  byte_values data → byte_values (embed_spec bm data).
Proof.
  unfold byte_values. rewrite !Forall_lookup. intros Hdata j v'.
  rewrite embed_spec_lookup. destruct (data !! j) as [v|] eqn:Hv; [|done].
  simpl_option. specialize (Hdata j v Hv). cbv beta in Hdata.
  destruct (decide (j mod 4 = 0)); [|intros [= <-]; exact Hdata].
  destruct (bm !! (j / 4)); intros [= <-]; [lia | exact Hdata].
Qed.

Lemma read_embed_spec_other bm data j :
  j mod 4 ≠ 0 → read (embed_spec bm data) j = read data j.
Proof.
  intros Hj. unfold read. rewrite embed_spec_lookup.
  destruct (data !! j) as [v|]; [|reflexivity]. simpl_option.
  rewrite decide_False by exact Hj. reflexivity.
Qed.

Lemma opaque_read data k :
  opaque data = true → k < pixels data → read data (4 * k + 3) = 255%N.
Proof.
  unfold opaque. rewrite forallb_forall. intros Hop Hk.
  apply N.eqb_eq, Hop, in_seq. lia.
Qed.

Lemma opaque_embed_spec bm data :
  opaque data = true → opaque (embed_spec bm data) = true.
Proof.
  intros Hop. unfold opaque. apply forallb_forall. intros k Hk.
  apply in_seq in Hk. rewrite pixels_embed_spec in Hk.
  rewrite read_embed_spec_other by lia. apply N.eqb_eq, opaque_read; [exact Hop | lia].
Qed.

Lemma length_canvas_get cw ch bitmap :
  length (canvas_get cw ch bitmap) = 4 * (cw * ch).
Proof. unfold canvas_get. rewrite length_fmap, length_seq. reflexivity. Qed.

Lemma byte_values_canvas_get cw ch bitmap : byte_values (canvas_get cw ch bitmap).
Proof.
  unfold byte_values, canvas_get. rewrite Forall_fmap. apply Forall_forall.
  intros j _. unfold compose. cbv beta zeta. case_decide; [lia|].
  unfold unpremultiply. destruct (_ =? 0)%N; lia.
Qed.

Lemma pixel_coordinates p cw ch :
  p < cw * ch → p mod cw < cw ∧ p / cw < ch ∧ p / cw * cw + p mod cw = p.
Proof.
  intros Hp. assert (cw ≠ 0) as Hcw by (intros ->; lia).
  split; [apply Nat.mod_upper_bound, Hcw|].
  split; [apply Nat.Div0.div_lt_upper_bound; lia|].
  pose proof (Nat.div_mod_eq p cw). lia.
Qed.

Lemma read_canvas_put img cw ch bitmap i :
  width img = cw → height img = ch → i < 4 * (cw * ch) →
  read (canvas_put img cw ch bitmap) i
  = if decide (i mod 4 = 3) then read (data img) (4 * (i / 4) + 3)
    else premultiply (read (data img) (4 * (i / 4) + i mod 4))
                     (read (data img) (4 * (i / 4) + 3)).
Proof.
  intros Hw Hh Hi. unfold read at 1. unfold canvas_put.
  rewrite list_lookup_fmap, lookup_seq_lt by exact Hi. simpl_option.
  cbn [Nat.add].
  destruct (pixel_coordinates (i / 4) cw ch) as (Hx & Hy & Hp); [lia|].
  rewrite decide_True by (rewrite Hw, Hh; done).
  rewrite Hw, Hp. reflexivity.
Qed.

Lemma premultiply_opaque v : (v < 256)%N → unpremultiply (premultiply v 255) 255 = v.
Proof. intros Hv. by_byte_cases v Hv. Qed.

(** The canvas hands an opaque image of its own size back as it was put. *)
Lemma canvas_get_put img cw ch bitmap :
  width img = cw → height img = ch → length (data img) = 4 * (cw * ch) →
  byte_values (data img) → opaque (data img) = true →
  canvas_get cw ch (canvas_put img cw ch bitmap) = data img.
Proof.
  intros Hw Hh Hlen Hbytes Hop. apply list_eq. intros j.
  destruct (decide (j < 4 * (cw * ch))) as [Hj|Hj].
  - destruct (lookup_lt_is_Some_2 (data img) j ltac:(lia)) as [v Hv].
    assert (v < 256)%N as Hbyte.
    { unfold byte_values in Hbytes. rewrite Forall_lookup in Hbytes. eapply Hbytes, Hv. }
    assert (read (data img) (4 * (j / 4) + 3) = 255%N) as Halpha.
    { apply opaque_read; [exact Hop | unfold pixels; lia]. }
    assert (N.min (read (canvas_put img cw ch bitmap) (4 * (j / 4) + 3)) 255
            = 255%N) as Hstored.
    { rewrite read_canvas_put by (try assumption; lia).
      rewrite decide_True by lia.
      replace ((4 * (j / 4) + 3) / 4) with (j / 4) by lia.
      rewrite Halpha. reflexivity. }
    unfold canvas_get. rewrite list_lookup_fmap, lookup_seq_lt by exact Hj.
    simpl_option. cbn [Nat.add]. rewrite Hv. f_equal. rewrite Hstored.
    destruct (decide (j mod 4 = 3)) as [H3|H3].
    + replace (4 * (j / 4) + 3) with j in Halpha by lia.
      unfold read in Halpha. rewrite Hv in Halpha. symmetry. exact Halpha.
    + rewrite read_canvas_put by assumption. rewrite decide_False by exact H3.
      rewrite Halpha. replace (4 * (j / 4) + j mod 4) with j by lia.
      unfold read. rewrite Hv. apply premultiply_opaque, Hbyte.
  - rewrite !lookup_ge_None_2; [reflexivity | lia |].
    rewrite length_canvas_get. lia.
Qed.

(** ** [encodeMessage] *)

Lemma encodeMessage_cases w img :
  imageData w = Some img → secretMessage w ≠ [] →
  (canvas_width w * canvas_height w
     < length (stringToBinary (secretMessage w ++ delimiter))
   ∧ encodeMessage w
     = Some (CapacityExceeded,
             emit (alert "Message is too large for this image size!")
                  (emit (call_stringToBinary (secretMessage w ++ delimiter)) w)))
  ∨ (length (stringToBinary (secretMessage w ++ delimiter))
       ≤ canvas_width w * canvas_height w
     ∧ ∃ w', encodeMessage w = Some (Embedded, w')
        ∧ imageData w'
          = Some {| width := canvas_width w; height := canvas_height w;
                    data :=
                      canvas_get (canvas_width w) (canvas_height w)
                        (canvas_put
                           {| width := width img; height := height img;
                              data := embed_spec
                                        (stringToBinary (secretMessage w ++ delimiter))
                                        (data img) |}
                           (canvas_width w) (canvas_height w) (canvas_bitmap w)) |}).
Proof.
  intros Himg Hmsg. unfold encodeMessage. rewrite Himg.
  rewrite decide_False by exact Hmsg. cbn [emit canvas_width canvas_height].
  case_decide as Hcap.
  - left. split; [exact Hcap | reflexivity].
  - right. split; [lia|]. rewrite encode_loop_total. cbn [mbind option_bind].
    eexists. split; reflexivity.
Qed.

Lemma encodeMessage_lossless w img :
  imageData w = Some img → secretMessage w ≠ [] →
  length (stringToBinary (secretMessage w ++ delimiter))
    ≤ canvas_width w * canvas_height w →
  width img = canvas_width w → height img = canvas_height w →
  length (data img) = 4 * (canvas_width w * canvas_height w) →
  byte_values (data img) → opaque (data img) = true →
  ∃ w', encodeMessage w = Some (Embedded, w')
    ∧ imageData w'
      = Some {| width := canvas_width w; height := canvas_height w;
                data := embed_spec (stringToBinary (secretMessage w ++ delimiter))
                                   (data img) |}.
Proof.
  intros Himg Hmsg Hcap Hw Hh Hlen Hbytes Hop.
  destruct (encodeMessage_cases w img Himg Hmsg) as [[Hover _]|[_ (w' & Henc & Hbuf)]];
    [lia|].
  exists w'. split; [exact Henc|]. rewrite Hbuf. do 2 f_equal.
  apply canvas_get_put; cbn [width height data].
  - exact Hw.
  - exact Hh.
  - rewrite length_embed_spec. exact Hlen.
  - apply byte_values_embed_spec, Hbytes.
  - apply opaque_embed_spec, Hop.
Qed.

(** C3 (atomicity on overflow).  Whenever [encodeMessage] ends at the
    capacity check, the framed message has more bits than the canvas has
    pixels and the buffer is the one of before the call: the only traces of
    the call are the bit conversion and the dialog, and no write. *)
Theorem capacity_exceeded_no_mutation (w w' : World) :
  encodeMessage w = Some (CapacityExceeded, w') →
  imageData w' = imageData w
  ∧ canvas_width w * canvas_height w
    < length (stringToBinary (secretMessage w ++ delimiter))
  ∧ trace w' = trace w ++ [call_stringToBinary (secretMessage w ++ delimiter);
                           alert "Message is too large for this image size!"].
Proof.
  intros Henc. destruct (imageData w) as [img|] eqn:Himg.
  - destruct (decide (secretMessage w = [])) as [Hmsg|Hmsg].
    + unfold encodeMessage in Henc. rewrite Himg, decide_True in Henc by exact Hmsg.
      discriminate.
    + destruct (encodeMessage_cases w img Himg Hmsg) as [[Hcap Heq]|[_ (w2 & Heq & _)]];
        rewrite Heq in Henc; [|discriminate].
      injection Henc as <-. split; [cbn; exact Himg|]. split; [exact Hcap|].
      cbn. rewrite <- app_assoc. reflexivity.
  - unfold encodeMessage in Henc. rewrite Himg in Henc. discriminate.
Qed.

Lemma capacity_exceeded_no_mutation_witness :
  let w := world_of 2 2 (grey 4) (codes "a") in
  let w' := emit (alert "Message is too large for this image size!")
                 (emit (call_stringToBinary (codes "a" ++ delimiter)) w) in
  imageData w' = imageData w
  ∧ canvas_width w * canvas_height w
    < length (stringToBinary (secretMessage w ++ delimiter))
  ∧ trace w' = trace w ++ [call_stringToBinary (secretMessage w ++ delimiter);
                           alert "Message is too large for this image size!"].
Proof.
  apply (capacity_exceeded_no_mutation (world_of 2 2 (grey 4) (codes "a"))).
  reflexivity.
Defined.




(** C5 (capacity boundary).  With [N] the pixel count of the canvas the
    buffer covers, a message of single-byte characters, framed, takes
    [(length + 9) * 8] bits; [encodeMessage] accepts it when that is exactly
    [N] and rejects it, at the capacity check and without touching the
    buffer, when that is [N + 1]. *)
Theorem capacity_boundary (w : World) (img : ImageData) :
  imageData w = Some img → secretMessage w ≠ [] → byte_values (secretMessage w) →
  length (stringToBinary (secretMessage w ++ delimiter))
    = (length (secretMessage w) + 9) * 8
  ∧ ((length (secretMessage w) + 9) * 8 = canvas_width w * canvas_height w →
     ∃ w', encodeMessage w = Some (Embedded, w'))
  ∧ ((length (secretMessage w) + 9) * 8 = canvas_width w * canvas_height w + 1 →
     ∃ w', encodeMessage w = Some (CapacityExceeded, w')
           ∧ imageData w' = imageData w).
Proof.
  intros Himg Hmsg Hbytes.
  assert (length (stringToBinary (secretMessage w ++ delimiter))
          = (length (secretMessage w) + 9) * 8) as Hlen.
  { rewrite stringToBinary_bytes, length_flat_byte8, length_app.
    - change (length delimiter) with 9. lia.
    - apply Forall_app. split; [exact Hbytes|]. vm_compute. repeat constructor. }
  split; [exact Hlen|].
  destruct (encodeMessage_cases w img Himg Hmsg) as [[Hcap Heq]|[Hcap (w2 & Heq & _)]].
  - split; [lia|]. intros _. eexists. split; [exact Heq | reflexivity].
  - split; [|lia]. intros _. exists w2. exact Heq.
Qed.

Lemma capacity_boundary_witness :
  let w := world_of 10 8 (grey 80) (codes "a") in
  length (stringToBinary (secretMessage w ++ delimiter))
    = (length (secretMessage w) + 9) * 8
  ∧ ((length (secretMessage w) + 9) * 8 = canvas_width w * canvas_height w →
     ∃ w', encodeMessage w = Some (Embedded, w'))
  ∧ ((length (secretMessage w) + 9) * 8 = canvas_width w * canvas_height w + 1 →
     ∃ w', encodeMessage w = Some (CapacityExceeded, w')
           ∧ imageData w' = imageData w).
Proof.
  apply (capacity_boundary (world_of 10 8 (grey 80) (codes "a"))
           {| width := 10; height := 8; data := grey 80 |});
    [reflexivity | discriminate | vm_compute; repeat constructor].
Defined.

(** C9 (empty input).  With no message text, [encodeMessage] is over at
    its first or second check -- [EmptyInput] when there is a buffer -- with
    nothing done but the dialog: [stringToBinary] is not called, the canvas
    is not used, and the buffer is the one of before. *)
Theorem empty_input_rejected (w : World) :
  secretMessage w = [] →
  ∃ w' text,
    encodeMessage w
      = Some (match imageData w with
              | Some _ => EmptyInput
              | None => MissingBuffer
              end, w')
    ∧ imageData w' = imageData w
    ∧ trace w' = trace w ++ [alert text].
Proof.
  intros Hmsg. unfold encodeMessage. destruct (imageData w) as [img|] eqn:Himg.
  - rewrite decide_True by exact Hmsg. eexists _, _.
    split; [reflexivity|]. split; [exact Himg | reflexivity].
  - eexists _, _. split; [reflexivity|]. split; [exact Himg | reflexivity].
Qed.

Lemma empty_input_rejected_witness :
  let w := world_of 3 3 (grey 9) [] in
  ∃ w' text,
    encodeMessage w
      = Some (match imageData w with
              | Some _ => EmptyInput
              | None => MissingBuffer
              end, w')
    ∧ imageData w' = imageData w
    ∧ trace w' = trace w ++ [alert text].
Proof.
  apply (empty_input_rejected (world_of 3 3 (grey 9) [])). reflexivity.
Defined.

(** ** The extraction loop in closed form *)

Lemma length_text_of b : length (text_of b) = length b / 8.
Proof. apply length_bytes_text. Qed.

Lemma text_of_lookup b q :
  q < length b / 8 →
  text_of b !! q = Some (fromCharCode (parseInt2 (take 8 (drop (8 * q) b)))).
Proof. apply bytes_text_lookup. Qed.

Lemma decode_loop_scan fuel data k extractedText :
  k < pixels data → pixels data - k ≤ fuel →
  decode_loop fuel data (4 * k) (take k (red_lsbs data)) extractedText
  = Some (scan extractedText (drop (k / 8) (text_of (red_lsbs data)))).
Proof.
  revert k extractedText.
  induction fuel as [|fuel IH]; intros k ext Hk Hfuel; [lia|].
  assert (4 * k < length data) as Hlt by (unfold pixels in Hk; lia).
  pose proof (length_red_lsbs data) as HlenB.
  pose proof (length_text_of (red_lsbs data)) as HlenT.
  cbn [decode_loop]. rewrite decide_True by exact Hlt.
  rewrite digit_land, <- (take_S_r _ _ _ (red_lsbs_lookup data k Hk)).
  rewrite length_take, Nat.min_l by lia.
  assert (∀ ext',
    (if decide (Z.of_nat (length data) - 4 ≤ Z.of_nat (4 * k))%Z then
       if decide (0 < length ext') then Some (NotFound ext') else Some Empty
     else decode_loop fuel data (4 * k + 4) (take (S k) (red_lsbs data)) ext')
    = Some (scan ext' (drop (S k / 8) (text_of (red_lsbs data))))) as Hsafe.
  { intros ext'. case_decide as Hend.
    - rewrite drop_ge by (unfold pixels in *; lia). cbn [scan].
      case_decide; reflexivity.
    - replace (4 * k + 4) with (4 * S k) by lia.
      apply IH; unfold pixels in *; lia. }
  destruct (decide (S k mod 8 = 0)) as [Hbyte|Hbyte].
  - unfold slice. rewrite skipn_firstn_comm.
    replace (S k - (S k - 8)) with 8 by lia.
    replace (S k - 8) with (8 * (k / 8)) by lia.
    assert (k / 8 < length (red_lsbs data) / 8) as Hq by lia.
    rewrite (drop_S _ _ _ (text_of_lookup (red_lsbs data) _ Hq)).
    cbn [scan]. unfold substring0.
    destruct (endsWith _ delimiter); [reflexivity|].
    rewrite Hsafe. replace (S k / 8) with (S (k / 8)) by lia. reflexivity.
  - rewrite Hsafe. replace (S k / 8) with (k / 8) by lia. reflexivity.
Qed.

Lemma decode_loop_total data :
  data ≠ [] →
  decode_loop (S (length data)) data 0 [] []
  = Some (scan [] (text_of (red_lsbs data))).
Proof.
  intros Hdata.
  assert (0 < length data) by (destruct data; [done | simpl; lia]).
  pose proof (decode_loop_scan (S (length data)) data 0 []) as H0.
  rewrite take_0 in H0. apply H0; unfold pixels; lia.
Qed.

Lemma scan_cases ext rest :
  (∃ m, scan ext rest = Found m)
  ∨ scan ext rest
    = (if decide (0 < length (ext ++ rest)) then NotFound (ext ++ rest) else Empty).
Proof.
  revert ext. induction rest as [|c rest IH]; intros ext; cbn [scan].
  - right. rewrite app_nil_r. reflexivity.
  - destruct (endsWith _ delimiter); [left; eauto|].
    rewrite (cons_middle c ext rest), app_assoc. apply IH.
Qed.

Lemma scan_none ext rest :
  (∀ k, endsWith (ext ++ take k rest) delimiter = false) →
  scan ext rest
  = (if decide (0 < length (ext ++ rest)) then NotFound (ext ++ rest) else Empty).
Proof.
  revert ext. induction rest as [|c rest IH]; intros ext Hnone; cbn [scan].
  - rewrite app_nil_r. reflexivity.
  - pose proof (Hnone 1) as H1. simpl in H1. try rewrite take_0 in H1. rewrite H1.
    rewrite (cons_middle c ext rest), app_assoc.
    apply IH. intros k. rewrite <- app_assoc. apply (Hnone (S k)).
Qed.

Lemma scan_first ext rest :
  rest ≠ [] →
  (∀ k, 0 < k < length rest → endsWith (ext ++ take k rest) delimiter = false) →
  endsWith (ext ++ rest) delimiter = true →
  scan ext rest
  = Found (take (length (ext ++ rest) - length delimiter) (ext ++ rest)).
Proof.
  revert ext. induction rest as [|c rest IH]; intros ext Hrest Hnone Hlast; [done|].
  cbn [scan]. destruct rest as [|d rest].
  - rewrite Hlast. reflexivity.
  - pose proof (Hnone 1 ltac:(simpl; lia)) as H1. simpl in H1. try rewrite take_0 in H1. rewrite H1.
    rewrite (cons_middle c ext (d :: rest)), app_assoc in Hlast |- *.
    apply IH; [done| |exact Hlast].
    intros k Hk. rewrite <- app_assoc. apply (Hnone (S k)). simpl in *. lia.
Qed.

Lemma scan_found_app ext a b m :
  scan ext a = Found m → scan ext (a ++ b) = Found m.
Proof.
  revert ext. induction a as [|c a IH]; intros ext; cbn [scan app].
  - case_decide; discriminate.
  - change ((c :: a) ++ b) with (c :: (a ++ b)). cbn [scan].
    destruct (endsWith _ delimiter); [done|]. apply IH.
Qed.

Lemma scan_framed M :
  delimiter_at_end_only M = true → scan [] (M ++ delimiter) = Found M.
Proof.
  intros Hclean. unfold delimiter_at_end_only in Hclean.
  rewrite forallb_forall in Hclean.
  rewrite scan_first.
  - rewrite app_nil_l, length_app, Nat.add_sub, take_app_length. reflexivity.
  - destruct M; discriminate.
  - intros k Hk. rewrite app_nil_l. apply negb_true_iff, Hclean.
    apply in_seq. rewrite length_app in Hk. lia.
  - rewrite app_nil_l. unfold endsWith. rewrite length_app.
    rewrite decide_False by lia. apply bool_decide_eq_true_2.
    rewrite Nat.add_sub. apply drop_app_length.
Qed.

(** ** [decodeMessage] *)

Lemma decodeMessage_scan w img :
  imageData w = Some img → data img ≠ [] →
  ∃ w', decodeMessage w = Some (scan [] (text_of (red_lsbs (data img))), w')
        ∧ ∀ m, scan [] (text_of (red_lsbs (data img))) = Found m →
               decodedMessage w' = m.
Proof.
  intros Himg Hdata. unfold decodeMessage. rewrite Himg.
  rewrite decode_loop_total by exact Hdata. cbn [mbind option_bind].
  destruct (scan [] (text_of (red_lsbs (data img)))) as [|m|t| |];
    eexists; (split; [reflexivity|]); try discriminate.
  intros m' [= <-]. reflexivity.
Qed.

(** ** Embedding, then extraction *)

Lemma framed_bits M :
  byte_values M →
  stringToBinary (M ++ delimiter) = flat_map byte8 (M ++ delimiter)
  ∧ length (stringToBinary (M ++ delimiter)) = (length M + 9) * 8
  ∧ byte_values (M ++ delimiter).
Proof.
  intros HM.
  assert (byte_values (M ++ delimiter)) as HT.
  { apply Forall_app. split; [exact HM|]. vm_compute. repeat constructor. }
  rewrite stringToBinary_bytes by exact HT.
  split; [reflexivity|]. split; [|exact HT].
  rewrite length_flat_byte8, length_app. change (length delimiter) with 9. lia.
Qed.

Lemma embed_then_scan w img :
  imageData w = Some img → byte_values (data img) →
  width img = canvas_width w → height img = canvas_height w →
  length (data img) = 4 * (canvas_width w * canvas_height w) →
  opaque (data img) = true →
  secretMessage w ≠ [] → byte_values (secretMessage w) →
  (length (secretMessage w) + 9) * 8 ≤ canvas_width w * canvas_height w →
  ∃ rest,
    ∀ m, scan [] ((secretMessage w ++ delimiter) ++ rest) = Found m →
         embed_then_extract w = Some (Embedded, Found m, m).
Proof.
  intros Himg Hdata Hw Hh Hlen Hop Hmsg HM Hcap.
  destruct (framed_bits (secretMessage w) HM) as (Hbits & Hframed & HT).
  destruct (encodeMessage_lossless w img Himg Hmsg ltac:(lia) Hw Hh Hlen Hdata Hop)
    as (w1 & Henc & Hbuf).
  rewrite Hbits in Hframed, Hbuf.
  assert (pixels (data img) = canvas_width w * canvas_height w) as Hpix
    by (unfold pixels; lia).
  exists (text_of (drop (length (flat_map byte8 (secretMessage w ++ delimiter)))
                        (red_lsbs (data img)))).
  intros m Hscan.
  edestruct (decodeMessage_scan w1) as (w2 & Hdec & Htext); [exact Hbuf| |].
  { cbn [data]. intros Hnil. apply (f_equal length) in Hnil.
    rewrite length_embed_spec in Hnil. simpl in Hnil. lia. }
  cbn [data] in Hdec, Htext.
  rewrite red_lsbs_embed_spec in Hdec, Htext by (try exact Hdata; lia).
  rewrite text_of_app_bytes in Hdec, Htext by exact HT.
  unfold embed_then_extract. rewrite Henc. cbn [mbind option_bind].
  rewrite Hdec. cbn [mbind option_bind]. rewrite Hscan.
  rewrite (Htext m Hscan). reflexivity.
Qed.

(** C1, as amended (round trip).  On an opaque buffer of single-byte
    channel values that is an image of the whole canvas (which the canvas
    hands back as it was put), for every non-empty message [M] of single-byte
    characters whose framed form [M ++ delimiter] holds the delimiter at its
    end only and fits, [(len(M) + 9) * 8 <= capacity], embedding succeeds and
    extraction from the result is [Found M], with [M] as the text shown. *)
Theorem roundtrip (w : World) (img : ImageData) :
  imageData w = Some img → byte_values (data img) →
  width img = canvas_width w → height img = canvas_height w →
  length (data img) = 4 * (canvas_width w * canvas_height w) →
  opaque (data img) = true →
  secretMessage w ≠ [] → byte_values (secretMessage w) →
  delimiter_at_end_only (secretMessage w) = true →
  (length (secretMessage w) + 9) * 8 ≤ canvas_width w * canvas_height w →
  embed_then_extract w
  = Some (Embedded, Found (secretMessage w), secretMessage w).
Proof.
  intros Himg Hdata Hw Hh Hlen Hop Hmsg HM Hclean Hcap.
  destruct (embed_then_scan w img Himg Hdata Hw Hh Hlen Hop Hmsg HM Hcap)
    as [rest Hrt].
  apply Hrt. apply scan_found_app, scan_framed, Hclean.
Qed.

Lemma roundtrip_witness :
  embed_then_extract (world_of 10 10 (opaque_grey 100) (codes "Hi"))
  = Some (Embedded, Found (codes "Hi"), codes "Hi").
Proof.
  apply (roundtrip (world_of 10 10 (opaque_grey 100) (codes "Hi"))
           {| width := 10; height := 10; data := opaque_grey 100 |});
    [reflexivity | vm_compute; repeat constructor | reflexivity | reflexivity
    | reflexivity | reflexivity | discriminate
    | vm_compute; repeat constructor | reflexivity | vm_compute; lia].
Defined.

(** C1, counterexample to the claim as stated.  The messages
    "ab|||END|||cd" and "x|||END" fit an opaque buffer of 176 pixels, are
    embedded, and come back as "ab" and "x": the framed message holds the
    delimiter before its end.  The message "Hi" fits a fully transparent
    buffer of 100 pixels, which the canvas returns as it is; it is reported
    as embedded and extraction ends at [NotFound] with twelve NUL
    characters: the canvas kept none of the bits. *)
Lemma roundtrip_counterexample :
  (length (codes "ab|||END|||cd") + 9) * 8 ≤ 16 * 11
  ∧ embed_then_extract (world_of 16 11 (opaque_grey 176) (codes "ab|||END|||cd"))
    = Some (Embedded, Found (codes "ab"), codes "ab")
  ∧ codes "ab" ≠ codes "ab|||END|||cd"
  ∧ (length (codes "x|||END") + 9) * 8 ≤ 16 * 11
  ∧ embed_then_extract (world_of 16 11 (opaque_grey 176) (codes "x|||END"))
    = Some (Embedded, Found (codes "x"), codes "x")
  ∧ codes "x" ≠ codes "x|||END"
  ∧ (length (codes "Hi") + 9) * 8 ≤ 10 * 10
  ∧ canvas_get 10 10 (canvas_put {| width := 10; height := 10;
                                    data := transparent 100 |} 10 10 [])
    = transparent 100
  ∧ embed_then_extract (world_of 10 10 (transparent 100) (codes "Hi"))
    = Some (Embedded, NotFound (replicate 12 0%N),
            codes "Partial message (no delimiter found): " ++ replicate 12 0%N).
Proof.
  split; [vm_compute; lia|]. split; [vm_compute; reflexivity|].
  split; [discriminate|]. split; [vm_compute; lia|].
  split; [vm_compute; reflexivity|]. split; [discriminate|].
  split; [vm_compute; lia|]. split; vm_compute; reflexivity.
Qed.




(** C2 (extraction outcomes).  On a buffer of [4 * width * height] values
    with [width, height >= 1], [decodeMessage] ends, with [text] the text of
    all least significant bits, at exactly one of: [Found] of a message,
    [NotFound text] with a non-empty [text], or [Empty] with an empty [text].
    When no prefix of [text] ends with the delimiter, it is [NotFound text]
    for a non-empty [text] and [Empty] otherwise. *)
Theorem extraction_outcomes (w : World) (img : ImageData) :
  imageData w = Some img →
  length (data img) = 4 * (width img * height img) →
  1 ≤ width img → 1 ≤ height img →
  ∃ text r w',
    binaryToString (red_lsbs (data img)) = Some text
    ∧ decodeMessage w = Some (r, w')
    ∧ ((∃ m, r = Found m)
       ∨ (r = NotFound text ∧ text ≠ [])
       ∨ (r = Empty ∧ text = []))
    ∧ ((∀ k, endsWith (take k text) delimiter = false) →
       r = if decide (text = []) then Empty else NotFound text).
Proof.
  intros Himg Hlen Hw Hh.
  assert (data img ≠ []) as Hdata.
  { intros Hnil. rewrite Hnil in Hlen. simpl in Hlen. nia. }
  destruct (decodeMessage_scan w img Himg Hdata) as (w' & Hdec & _).
  exists (text_of (red_lsbs (data img))), (scan [] (text_of (red_lsbs (data img)))), w'.
  split; [apply binaryToString_text|]. split; [exact Hdec|].
  set (text := text_of (red_lsbs (data img))).
  assert ((if decide (0 < length ([] ++ text)) then NotFound ([] ++ text) else Empty)
          = (if decide (text = []) then Empty else NotFound text)) as Hif.
  { rewrite app_nil_l. destruct text; simpl; repeat case_decide; try done; lia. }
  split.
  - destruct (scan_cases [] text) as [Hfound|Hnot]; [left; exact Hfound|].
    right. rewrite Hif in Hnot. rewrite Hnot.
    destruct (decide (text = [])) as [Ht|Ht]; [right|left];
      (split; [reflexivity | exact Ht]).
  - intros Hnone. rewrite scan_none by exact Hnone. exact Hif.
Qed.

Lemma extraction_outcomes_witness :
  ∃ text r w',
    binaryToString (red_lsbs (grey 16)) = Some text
    ∧ decodeMessage (world_of 4 4 (grey 16) []) = Some (r, w')
    ∧ ((∃ m, r = Found m)
       ∨ (r = NotFound text ∧ text ≠ [])
       ∨ (r = Empty ∧ text = []))
    ∧ ((∀ k, endsWith (take k text) delimiter = false) →
       r = if decide (text = []) then Empty else NotFound text).
Proof.
  apply (extraction_outcomes (world_of 4 4 (grey 16) [])
           {| width := 4; height := 4; data := grey 16 |});
    [reflexivity | reflexivity | simpl; lia | simpl; lia].
Defined.

Example stringToBinary_hi :
  stringToBinary (codes "Hi") =
  [false;true;false;false;true;false;false;false;
   false;true;true;false;true;false;false;true].
Proof. reflexivity. Qed.

Example binaryToString_hi :
  binaryToString (stringToBinary (codes "Hi") ++ [true; true]) = Some (codes "Hi").
Proof. vm_compute. reflexivity. Qed.

(** Fewer than eight pixels give no character: [Empty]. *)
Example decode_seven_pixels :
  fst <$> decodeMessage (world_of 7 1 (grey 7) []) = Some Empty.
Proof. vm_compute. reflexivity. Qed.

(** Sixteen pixels with even red values read as two NUL characters. *)
Example decode_sixteen_pixels :
  fst <$> decodeMessage (world_of 4 4 (grey 16) []) = Some (NotFound [0; 0]%N).
Proof. vm_compute. reflexivity. Qed.

(** A buffer without pixels, which no canvas image has, leaves the loop at
    once and the function without any output. *)
Example decode_no_pixels :
  decodeMessage (world_of 0 0 [] []) = Some (NoOutput, world_of 0 0 [] []).
Proof. vm_compute. reflexivity. Qed.

(** The buffer check comes first, the message check second. *)
Example encode_without_buffer :
  fst <$> encodeMessage {| imageData := None; canvas_width := 400;
                           canvas_height := 300; canvas_bitmap := [];
                           secretMessage := [];
                           decodedMessage := []; trace := [] |}
  = Some MissingBuffer.
Proof. reflexivity. Qed.

(** A store of the embedding loop: red 129 takes bit 0 and becomes 128. *)
Example embed_one_pixel :
  encode_loop 5 [false] [129; 7; 7; 255]%N 0 0 = Some [128; 7; 7; 255]%N.
Proof. reflexivity. Qed.


(** * Further properties of the codec *)

(** ** Text to bits and back *)

Lemma text_of_bytes s : byte_values s → text_of (flat_map byte8 s) = s.
Proof.
  intros Hs. pose proof (text_of_app_bytes s [] Hs) as H.
  rewrite !app_nil_r in H. exact H.
Qed.

(** X1.  [binaryToString] undoes [stringToBinary] on every string of
    single-byte characters. *)
Theorem binaryToString_stringToBinary (str : jsstring) :
  byte_values str → binaryToString (stringToBinary str) = Some str.
Proof.
  intros Hs. rewrite binaryToString_text, stringToBinary_bytes by exact Hs.
  rewrite text_of_bytes by exact Hs. reflexivity.
Qed.

Lemma binaryToString_stringToBinary_witness :
  binaryToString (stringToBinary (codes "LSB")) = Some (codes "LSB").
Proof.
  apply (binaryToString_stringToBinary (codes "LSB")).
  vm_compute. repeat constructor.
Defined.

Lemma byte8_parseInt2 (b : bits) :
  length b = 8 → (parseInt2 b < 256)%N ∧ byte8 (parseInt2 b) = b.
Proof.
  intros Hb.
  do 8 (destruct b as [|? b]; [discriminate|]).
  destruct b; [|discriminate].
  repeat match goal with x : bool |- _ => destruct x end;
    (split; [reflexivity | reflexivity]).
Qed.

Lemma bytes_text_bits n b :
  8 * n ≤ length b →
  byte_values (bytes_text n b) ∧ flat_map byte8 (bytes_text n b) = take (8 * n) b.
Proof.
  revert b. induction n as [|n IH]; intros b Hn.
  - split; [constructor | reflexivity].
  - destruct (byte8_parseInt2 (take 8 b)) as [Hlt Hbits].
    { rewrite length_take. lia. }
    destruct (IH (drop 8 b)) as [Hbytes Hflat].
    { rewrite length_drop. lia. }
    cbn [bytes_text]. rewrite fromCharCode_small by lia. split.
    + constructor; [exact Hlt | exact Hbytes].
    + change (flat_map byte8 (parseInt2 (take 8 b) :: bytes_text n (drop 8 b)))
        with (byte8 (parseInt2 (take 8 b)) ++ flat_map byte8 (bytes_text n (drop 8 b))).
      rewrite Hbits, Hflat, take_take_drop. f_equal. lia.
Qed.

Lemma text_of_bits b :
  byte_values (text_of b)
  ∧ flat_map byte8 (text_of b) = take (8 * (length b / 8)) b.
Proof. apply bytes_text_bits. lia. Qed.

(** X2.  [binaryToString] always returns a text: one character below 256
    per complete group of 8 bits, and [stringToBinary] of it gives the bits
    of these groups back (all of the input when its length is a multiple
    of 8). *)
Theorem stringToBinary_binaryToString (binary : bits) :
  ∃ text, binaryToString binary = Some text
    ∧ length text = length binary / 8
    ∧ byte_values text
    ∧ stringToBinary text = take (8 * (length binary / 8)) binary.
Proof.
  exists (text_of binary). destruct (text_of_bits binary) as [Hbytes Hbits].
  split; [apply binaryToString_text|]. split; [apply length_text_of|].
  split; [exact Hbytes|]. rewrite stringToBinary_bytes by exact Hbytes.
  exact Hbits.
Qed.

(** X3.  [stringToBinary] of a concatenation is the concatenation of the
    bit strings, for all strings. *)
Theorem stringToBinary_concat (s t : jsstring) :
  stringToBinary (s ++ t) = stringToBinary s ++ stringToBinary t.
Proof.
  unfold stringToBinary. rewrite !stringToBinary_loop_flat, !app_nil_l.
  induction s as [|c s IH]; [reflexivity|].
  simpl. rewrite IH, app_assoc. reflexivity.
Qed.

Lemma length_char_bits c :
  (if decide (c < 256)%N then length (char_bits c) = 8
   else 8 < length (char_bits c)).
Proof.
  case_decide as Hc.
  - unfold char_bits. rewrite padStart_byte by exact Hc. reflexivity.
  - unfold char_bits. rewrite length_padStart.
    destruct c as [|p]; [lia|]. simpl toString2. rewrite length_pos_digits.
    destruct (size_nat_bounds p) as [_ Hhi].
    destruct (decide (8 < Pos.size_nat p)) as [|Hn]; [lia|].
    assert (2 ^ N.of_nat (Pos.size_nat p) ≤ 2 ^ 8)%N by (apply N.pow_le_mono_r; lia).
    change (2 ^ 8)%N with 256%N in *. lia.
Qed.

(** X4.  [stringToBinary] emits at least 8 bits per character, and exactly
    8 per character precisely for the strings whose characters are all below
    256. *)
Theorem stringToBinary_length (str : jsstring) :
  8 * length str ≤ length (stringToBinary str)
  ∧ (length (stringToBinary str) = 8 * length str ↔ byte_values str).
Proof.
  rewrite stringToBinary_flat. induction str as [|c str [IHle IHiff]].
  - split; [simpl; lia|]. split; [constructor | reflexivity].
  - change (flat_map char_bits (c :: str))
      with (char_bits c ++ flat_map char_bits str).
    rewrite length_app. cbn [length].
    pose proof (length_char_bits c) as Hc. unfold byte_values in *.
    rewrite Forall_cons. case_decide as Hlt.
    + split; [lia|]. rewrite <- IHiff. split; [lia|]. intros [_ Heq]. lia.
    + split; [lia|]. split; [lia|]. intros [Hcontra _]. contradiction.
Qed.

Lemma bytes_text_app n m a b :
  length a = 8 * n →
  bytes_text (n + m) (a ++ b) = bytes_text n a ++ bytes_text m b.
Proof.
  revert a. induction n as [|n IH]; intros a Ha.
  - destruct a; [reflexivity | discriminate].
  - cbn [bytes_text Nat.add]. rewrite take_app_le by lia.
    rewrite drop_app_le by lia. rewrite IH by (rewrite length_drop; lia).
    reflexivity.
Qed.

(** X5.  After a bit string of whole bytes, [binaryToString] of a
    concatenation is the concatenation of the texts. *)
Theorem binaryToString_concat (a b : bits) :
  length a mod 8 = 0 →
  ∃ ta tb, binaryToString a = Some ta ∧ binaryToString b = Some tb
    ∧ binaryToString (a ++ b) = Some (ta ++ tb).
Proof.
  intros Ha. exists (text_of a), (text_of b).
  rewrite !binaryToString_text. split; [reflexivity|]. split; [reflexivity|].
  f_equal. unfold text_of. rewrite length_app.
  replace ((length a + length b) / 8) with (length a / 8 + length b / 8) by lia.
  apply bytes_text_app. lia.
Qed.

Lemma binaryToString_concat_witness :
  ∃ ta tb, binaryToString (stringToBinary (codes "a")) = Some ta
    ∧ binaryToString [true; false; true] = Some tb
    ∧ binaryToString (stringToBinary (codes "a") ++ [true; false; true])
      = Some (ta ++ tb).
Proof.
  apply (binaryToString_concat (stringToBinary (codes "a")) [true; false; true]).
  reflexivity.
Defined.

(** ** Further properties of [encodeMessage] *)

Lemma encodeMessage_fields w o w' :
  encodeMessage w = Some (o, w') →
  secretMessage w' = secretMessage w
  ∧ canvas_width w' = canvas_width w ∧ canvas_height w' = canvas_height w
  ∧ decodedMessage w' = decodedMessage w.
Proof.
  unfold encodeMessage. destruct (imageData w) as [img|].
  - case_decide; [intros [= <- <-]; done|].
    cbn [emit canvas_width canvas_height]. case_decide; [intros [= <- <-]; done|].
    rewrite encode_loop_total. cbn. intros [= <- <-]. done.
  - intros [= <- <-]. done.
Qed.

Lemma encodeMessage_embedded w w' :
  encodeMessage w = Some (Embedded, w') →
  ∃ img, imageData w = Some img ∧ secretMessage w ≠ []
    ∧ length (stringToBinary (secretMessage w ++ delimiter))
      ≤ canvas_width w * canvas_height w
    ∧ imageData w'
      = Some {| width := canvas_width w; height := canvas_height w;
                data :=
                  canvas_get (canvas_width w) (canvas_height w)
                    (canvas_put
                       {| width := width img; height := height img;
                          data := embed_spec
                                    (stringToBinary (secretMessage w ++ delimiter))
                                    (data img) |}
                       (canvas_width w) (canvas_height w) (canvas_bitmap w)) |}.
Proof.
  intros Henc. destruct (imageData w) as [img|] eqn:Himg.
  - destruct (decide (secretMessage w = [])) as [Hmsg|Hmsg].
    + unfold encodeMessage in Henc. rewrite Himg, decide_True in Henc by exact Hmsg.
      discriminate.
    + destruct (encodeMessage_cases w img Himg Hmsg)
        as [[_ Heq]|[Hcap (w2 & Heq & Hbuf)]]; rewrite Heq in Henc; [discriminate|].
      injection Henc as <-. exists img. done.
  - unfold encodeMessage in Henc. rewrite Himg in Henc. discriminate.
Qed.

Lemma encodeMessage_failed w o w' :
  encodeMessage w = Some (o, w') → o ≠ Embedded → imageData w' = imageData w.
Proof.
  unfold encodeMessage. destruct (imageData w) as [img|] eqn:Himg.
  - case_decide; [intros [= <- <-]; done|].
    cbn [emit canvas_width canvas_height]. case_decide; [intros [= <- <-]; done|].
    rewrite encode_loop_total. cbn. intros [= <- <-]. done.
  - intros [= <- <-]. done.
Qed.

(** X6.  [encodeMessage] always ends.  It embeds exactly when there is a
    buffer, the message is not empty and its framed bit string is not longer
    than the canvas has pixels; in every other case the buffer is the one of
    before.  It never changes the canvas size, the message field or the
    output field. *)
Theorem encodeMessage_outcome (w : World) :
  ∃ o w', encodeMessage w = Some (o, w')
    ∧ (o = Embedded ↔
       is_Some (imageData w) ∧ secretMessage w ≠ []
       ∧ length (stringToBinary (secretMessage w ++ delimiter))
         ≤ canvas_width w * canvas_height w)
    ∧ (o ≠ Embedded → imageData w' = imageData w)
    ∧ secretMessage w' = secretMessage w
    ∧ canvas_width w' = canvas_width w ∧ canvas_height w' = canvas_height w
    ∧ decodedMessage w' = decodedMessage w.
Proof.
  assert (∃ o w', encodeMessage w = Some (o, w')
    ∧ (o = Embedded ↔
       is_Some (imageData w) ∧ secretMessage w ≠ []
       ∧ length (stringToBinary (secretMessage w ++ delimiter))
         ≤ canvas_width w * canvas_height w)
    ∧ (o ≠ Embedded → imageData w' = imageData w)) as (o & w' & Henc & Hiff & Hkeep).
  { destruct (imageData w) as [img|] eqn:Himg.
    - destruct (decide (secretMessage w = [])) as [Hmsg|Hmsg].
      + eexists _, _. split.
        { unfold encodeMessage. rewrite Himg, decide_True by exact Hmsg. reflexivity. }
        split; [|intros _; exact Himg].
        split; [discriminate|]. intros (_ & Hne & _). contradiction.
      + destruct (encodeMessage_cases w img Himg Hmsg)
          as [[Hcap Heq]|[Hcap (w2 & Heq & Hbuf)]].
        * eexists _, _. split; [exact Heq|]. split; [|intros _; exact Himg].
          split; [discriminate|]. intros (_ & _ & Hle). lia.
        * exists Embedded, w2. split; [exact Heq|]. split; [|done].
          split; [|done]. intros _. split; [eauto|]. split; [exact Hmsg | exact Hcap].
    - eexists _, _. split.
      { unfold encodeMessage. rewrite Himg. reflexivity. }
      split; [|intros _; exact Himg].
      split; [discriminate|]. intros ([img Himg'] & _). discriminate. }
  exists o, w'. split; [exact Henc|]. split; [exact Hiff|]. split; [exact Hkeep|].
  apply (encodeMessage_fields w o w' Henc).
Qed.

Lemma encodeMessage_embedded_lossless w w' img :
  imageData w = Some img → encodeMessage w = Some (Embedded, w') →
  width img = canvas_width w → height img = canvas_height w →
  length (data img) = 4 * (canvas_width w * canvas_height w) →
  byte_values (data img) → opaque (data img) = true →
  imageData w'
  = Some {| width := canvas_width w; height := canvas_height w;
            data := embed_spec (stringToBinary (secretMessage w ++ delimiter))
                               (data img) |}.
Proof.
  intros Himg Henc Hw Hh Hlen Hbytes Hop.
  destruct (encodeMessage_embedded w w' Henc) as (img0 & Himg0 & Hmsg & Hcap & _).
  destruct (encodeMessage_lossless w img Himg Hmsg Hcap Hw Hh Hlen Hbytes Hop)
    as (w2 & Heq & Hbuf).
  rewrite Heq in Henc. injection Henc as <-. exact Hbuf.
Qed.

(** X7.  After a successful [encodeMessage] on an opaque buffer of byte
    values that is an image of the whole canvas, bit [k] of the framed
    message is the least significant bit of the red value of pixel [k], for
    every pixel the buffer has. *)
Theorem embedded_bits_written (w w' : World) (img : ImageData) :
  imageData w = Some img → byte_values (data img) →
  width img = canvas_width w → height img = canvas_height w →
  length (data img) = 4 * (canvas_width w * canvas_height w) →
  opaque (data img) = true →
  encodeMessage w = Some (Embedded, w') →
  ∃ img', imageData w' = Some img'
    ∧ ∀ k b, stringToBinary (secretMessage w ++ delimiter) !! k = Some b →
        4 * k < length (data img) →
        ∃ v', data img' !! (4 * k) = Some v' ∧ N.testbit v' 0 = b.
Proof.
  intros Himg Hbytes Hw Hh Hlen Hop Henc.
  pose proof (encodeMessage_embedded_lossless w w' img Himg Henc Hw Hh Hlen Hbytes Hop)
    as Hbuf.
  eexists. split; [exact Hbuf|]. cbn [data]. intros k b Hb Hk.
  destruct (lookup_lt_is_Some_2 (data img) (4 * k) Hk) as [v Hv].
  assert (v < 256)%N as Hbyte.
  { unfold byte_values in Hbytes. rewrite Forall_lookup in Hbytes. eapply Hbytes, Hv. }
  rewrite embed_spec_lookup, Hv. simpl_option.
  rewrite decide_True by lia. replace (4 * k / 4) with k by lia. rewrite Hb.
  eexists. split; [reflexivity|]. rewrite clamp_set_lsb by exact Hbyte.
  apply (set_lsb_byte v b Hbyte).
Qed.

Lemma embedded_bits_written_witness :
  let w := world_of 10 8 (opaque_grey 80) (codes "a") in
  ∃ w', encodeMessage w = Some (Embedded, w')
  ∧ ∃ img', imageData w' = Some img'
    ∧ ∀ k b, stringToBinary (secretMessage w ++ delimiter) !! k = Some b →
        4 * k < length (opaque_grey 80) →
        ∃ v', data img' !! (4 * k) = Some v' ∧ N.testbit v' 0 = b.
Proof.
  intros w. destruct (encodeMessage w) as [[o w']|] eqn:Henc; [|vm_compute in Henc; discriminate].
  destruct o; try (vm_compute in Henc; discriminate).
  exists w'. split; [reflexivity|].
  apply (embedded_bits_written w w' {| width := 10; height := 8; data := opaque_grey 80 |});
    [reflexivity | vm_compute; repeat constructor | reflexivity | reflexivity
    | reflexivity | reflexivity | exact Henc].
Defined.

Lemma set_lsb_idem v b :
  (v < 256)%N → set_lsb (set_lsb v b) b = set_lsb v b.
Proof. intros Hv. destruct b; by_byte_cases v Hv. Qed.

Lemma embed_spec_idem bm data :
  byte_values data → embed_spec bm (embed_spec bm data) = embed_spec bm data.
Proof.
  intros Hdata. apply list_eq. intros j. rewrite !embed_spec_lookup.
  destruct (data !! j) as [v|] eqn:Hv; [|done]. simpl_option. f_equal.
  assert (v < 256)%N as Hbyte.
  { unfold byte_values in Hdata. rewrite Forall_lookup in Hdata. eapply Hdata, Hv. }
  case_decide; [|done]. destruct (bm !! (j / 4)) as [b|]; [|done].
  rewrite (clamp_set_lsb v b Hbyte).
  rewrite clamp_set_lsb by apply (set_lsb_byte v b Hbyte).
  apply set_lsb_idem, Hbyte.
Qed.

(** X8.  Embedding is idempotent: a second [encodeMessage] of the same
    message, right after a successful one on an opaque buffer of byte values
    that is an image of the whole canvas, succeeds and leaves the buffer as
    the first one left it. *)
Theorem encodeMessage_twice (w w1 : World) (img : ImageData) :
  imageData w = Some img → byte_values (data img) →
  width img = canvas_width w → height img = canvas_height w →
  length (data img) = 4 * (canvas_width w * canvas_height w) →
  opaque (data img) = true →
  encodeMessage w = Some (Embedded, w1) →
  ∃ w2, encodeMessage w1 = Some (Embedded, w2) ∧ imageData w2 = imageData w1.
Proof.
  intros Himg Hbytes Hw Hh Hlen Hop Henc.
  destruct (encodeMessage_embedded w w1 Henc) as (img0 & _ & Hmsg & Hcap & _).
  pose proof (encodeMessage_embedded_lossless w w1 img Himg Henc Hw Hh Hlen Hbytes Hop)
    as Hbuf.
  destruct (encodeMessage_fields w _ w1 Henc) as (Hm & Hcw & Hch & _).
  edestruct (encodeMessage_lossless w1) as (w2 & Henc2 & Hbuf2); [exact Hbuf|..].
  - rewrite Hm. exact Hmsg.
  - rewrite Hm, Hcw, Hch. exact Hcap.
  - rewrite Hcw. reflexivity.
  - rewrite Hch. reflexivity.
  - cbn [data]. rewrite length_embed_spec, Hcw, Hch. exact Hlen.
  - apply byte_values_embed_spec, Hbytes.
  - apply opaque_embed_spec, Hop.
  - exists w2. split; [exact Henc2|]. rewrite Hbuf2, Hbuf, Hm, Hcw, Hch.
    cbn [data]. rewrite embed_spec_idem by exact Hbytes. reflexivity.
Qed.

Lemma encodeMessage_twice_witness :
  let w := world_of 10 8 (opaque_grey 80) (codes "a") in
  ∃ w1, encodeMessage w = Some (Embedded, w1)
  ∧ ∃ w2, encodeMessage w1 = Some (Embedded, w2) ∧ imageData w2 = imageData w1.
Proof.
  intros w. destruct (encodeMessage w) as [[o w1]|] eqn:Henc; [|vm_compute in Henc; discriminate].
  destruct o; try (vm_compute in Henc; discriminate).
  exists w1. split; [reflexivity|].
  apply (encodeMessage_twice w w1 {| width := 10; height := 8; data := opaque_grey 80 |});
    [reflexivity | vm_compute; repeat constructor | reflexivity | reflexivity
    | reflexivity | reflexivity | exact Henc].
Defined.

(** X9.  [encodeMessage] keeps the buffer an image of the whole canvas:
    whatever its outcome, a buffer with the canvas dimensions, four values
    per pixel and values below 256 is left as such a buffer. *)
Theorem encodeMessage_buffer_ok (w w' : World) (o : EmbedOutcome) :
  buffer_ok w → encodeMessage w = Some (o, w') → buffer_ok w'.
Proof.
  intros Hok Henc.
  destruct (encodeMessage_fields w o w' Henc) as (_ & Hcw & Hch & _).
  pose proof (encodeMessage_failed w o w' Henc) as Hkeep.
  assert (o = Embedded ∨ o ≠ Embedded) as [->|Hfail]
    by (destruct o; (left; reflexivity) || (right; discriminate)).
  - destruct (encodeMessage_embedded w w' Henc) as (img & Himg & _ & _ & Hbuf).
    intros img' Himg'. rewrite Hbuf in Himg'. injection Himg' as <-.
    cbn [width height data]. rewrite Hcw, Hch, length_canvas_get.
    split; [reflexivity|]. split; [reflexivity|]. split; [reflexivity|].
    apply byte_values_canvas_get.
  - intros img' Himg'. rewrite (Hkeep Hfail) in Himg'. rewrite Hcw, Hch.
    apply Hok, Himg'.
Qed.

Lemma encodeMessage_buffer_ok_witness :
  let w := world_of 10 8 (grey 80) (codes "a") in
  ∃ o w', encodeMessage w = Some (o, w') ∧ buffer_ok w'.
Proof.
  intros w. destruct (encodeMessage w) as [[o w']|] eqn:Henc; [|vm_compute in Henc; discriminate].
  exists o, w'. split; [reflexivity|].
  apply (encodeMessage_buffer_ok w w' o); [|exact Henc].
  intros img [= <-]. vm_compute. repeat split; repeat constructor.
Defined.


(** ** Further properties of [decodeMessage] *)

Lemma decodeMessage_extraction w :
  ∃ w', decodeMessage w = Some (extraction (imageData w), w')
    ∧ imageData w' = imageData w
    ∧ canvas_width w' = canvas_width w ∧ canvas_height w' = canvas_height w
    ∧ secretMessage w' = secretMessage w.
Proof.
  unfold decodeMessage, extraction. destruct (imageData w) as [img|] eqn:Himg.
  - case_decide as Hdata.
    + rewrite Hdata. cbn. eexists. rewrite Himg. done.
    + rewrite decode_loop_total by exact Hdata. cbn [mbind option_bind].
      destruct (scan [] (text_of (red_lsbs (data img))));
        eexists; (split; [reflexivity|]); cbn; rewrite ?Himg; done.
  - eexists. split; [reflexivity|]. cbn. rewrite Himg. done.
Qed.

(** X10.  [decodeMessage] always ends and only reads: buffer, canvas size
    and message field are the ones of before, and decoding again gives the
    same outcome. *)
Theorem decodeMessage_read_only (w : World) :
  ∃ r w', decodeMessage w = Some (r, w')
    ∧ imageData w' = imageData w
    ∧ canvas_width w' = canvas_width w ∧ canvas_height w' = canvas_height w
    ∧ secretMessage w' = secretMessage w
    ∧ ∃ w'', decodeMessage w' = Some (r, w'').
Proof.
  destruct (decodeMessage_extraction w) as (w' & Hdec & Himg & Hcw & Hch & Hm).
  exists (extraction (imageData w)), w'. repeat (split; [assumption|]).
  destruct (decodeMessage_extraction w') as (w'' & Hdec' & _).
  exists w''. rewrite Hdec', Himg. reflexivity.
Qed.

(** X11.  A call of [encodeMessage] that does not embed leaves what
    [decodeMessage] finds unchanged. *)
Theorem failed_embed_keeps_extraction (w w1 : World) (o : EmbedOutcome) :
  encodeMessage w = Some (o, w1) → o ≠ Embedded →
  fst <$> decodeMessage w1 = fst <$> decodeMessage w.
Proof.
  intros Henc Hfail. pose proof (encodeMessage_failed w o w1 Henc Hfail) as Himg.
  destruct (decodeMessage_extraction w) as (w' & -> & _).
  destruct (decodeMessage_extraction w1) as (w1' & -> & _).
  cbn. rewrite Himg. reflexivity.
Qed.

Lemma failed_embed_keeps_extraction_witness :
  let w := world_of 2 2 (grey 4) (codes "a") in
  let w1 := emit (alert "Message is too large for this image size!")
                 (emit (call_stringToBinary (codes "a" ++ delimiter)) w) in
  fst <$> decodeMessage w1 = fst <$> decodeMessage w.
Proof.
  apply (failed_embed_keeps_extraction (world_of 2 2 (grey 4) (codes "a")) _
           CapacityExceeded); [reflexivity | discriminate].
Defined.

Lemma red_lsbs_ext data1 data2 :
  length data1 = length data2 →
  (∀ k, 4 * k < length data1 →
        N.testbit (read data1 (4 * k)) 0 = N.testbit (read data2 (4 * k)) 0) →
  red_lsbs data1 = red_lsbs data2.
Proof.
  intros Hlen Hbits. apply list_eq. intros k. unfold red_lsbs, pixels.
  rewrite !list_lookup_fmap, <- Hlen.
  destruct (seq 0 ((length data1 + 3) / 4) !! k) as [k'|] eqn:Hk; [|done].
  apply lookup_seq in Hk as [-> Hk]. simpl_option. f_equal. apply Hbits. lia.
Qed.

(** X12.  [decodeMessage] looks at nothing but the least significant bits
    of the red values: two buffers of one length that agree on them give the
    same outcome, whatever their other bits and channels hold. *)
Theorem decodeMessage_red_lsbs_only (w1 w2 : World) (img1 img2 : ImageData) :
  imageData w1 = Some img1 → imageData w2 = Some img2 →
  length (data img1) = length (data img2) →
  (∀ k, 4 * k < length (data img1) →
        N.testbit (read (data img1) (4 * k)) 0
        = N.testbit (read (data img2) (4 * k)) 0) →
  fst <$> decodeMessage w1 = fst <$> decodeMessage w2.
Proof.
  intros Himg1 Himg2 Hlen Hbits.
  destruct (decodeMessage_extraction w1) as (w1' & -> & _).
  destruct (decodeMessage_extraction w2) as (w2' & -> & _).
  cbn. rewrite Himg1, Himg2. unfold extraction. f_equal.
  rewrite (red_lsbs_ext _ _ Hlen Hbits).
  destruct (data img1), (data img2); try discriminate; reflexivity.
Qed.

Lemma decodeMessage_red_lsbs_only_witness :
  fst <$> decodeMessage (world_of 2 1 [128; 0; 0; 255; 129; 0; 0; 255]%N [])
  = fst <$> decodeMessage (world_of 2 1 [36; 99; 7; 0; 255; 1; 1; 1]%N []).
Proof.
  apply (decodeMessage_red_lsbs_only _ _
           {| width := 2; height := 1; data := [128; 0; 0; 255; 129; 0; 0; 255]%N |}
           {| width := 2; height := 1; data := [36; 99; 7; 0; 255; 1; 1; 1]%N |});
    [reflexivity | reflexivity | reflexivity |].
  intros k Hk. simpl in Hk.
  do 2 (destruct k as [|k]; [reflexivity|]). lia.
Defined.

(** ** What is found, and when *)

Lemma endsWith_split s :
  endsWith s delimiter = true →
  length delimiter ≤ length s
  ∧ s = take (length s - length delimiter) s ++ delimiter.
Proof.
  unfold endsWith. case_decide as Hlen; [discriminate|].
  intros Hend. apply bool_decide_eq_true_1 in Hend. split; [lia|].
  transitivity (take (length s - length delimiter) s
                ++ drop (length s - length delimiter) s);
    [symmetry; apply take_drop | f_equal; exact Hend].
Qed.

Lemma endsWith_framed M : endsWith (M ++ delimiter) delimiter = true.
Proof.
  unfold endsWith. rewrite length_app. rewrite decide_False by lia.
  apply bool_decide_eq_true_2. rewrite Nat.add_sub. apply drop_app_length.
Qed.

Lemma scan_found_inv ext rest m :
  scan ext rest = Found m →
  ∃ j, 0 < j ≤ length rest
    ∧ endsWith (ext ++ take j rest) delimiter = true
    ∧ (∀ k, 0 < k < j → endsWith (ext ++ take k rest) delimiter = false)
    ∧ m = take (length (ext ++ take j rest) - length delimiter)
               (ext ++ take j rest).
Proof.
  revert ext. induction rest as [|c rest IH]; intros ext; cbn [scan].
  - case_decide; discriminate.
  - destruct (endsWith (ext ++ [c]) delimiter) eqn:Hc.
    + intros [= <-]. exists 1. cbn [take]. rewrite take_0.
      split; [simpl; lia|]. split; [exact Hc|]. split; [intros k; lia | reflexivity].
    + intros Hscan. destruct (IH _ Hscan) as (j & Hj & Hhit & Hfirst & Hm).
      exists (S j). cbn [take]. rewrite <- app_assoc in Hhit, Hm.
      split; [simpl; lia|]. split; [exact Hhit|]. split; [|exact Hm].
      intros k Hk. destruct k as [|k]; [lia|]. cbn [take].
      destruct k as [|k]; [rewrite take_0; exact Hc|].
      rewrite (cons_middle c ext), app_assoc. apply Hfirst. lia.
Qed.

Lemma scan_hit ext rest :
  rest ≠ [] → endsWith (ext ++ rest) delimiter = true →
  ∃ m, scan ext rest = Found m.
Proof.
  revert ext. induction rest as [|c rest IH]; intros ext Hrest Hend; [done|].
  cbn [scan]. destruct (endsWith (ext ++ [c]) delimiter) eqn:Hc; [eauto|].
  destruct rest as [|d rest]; [rewrite Hc in Hend; discriminate|].
  apply IH; [done|]. rewrite <- app_assoc. exact Hend.
Qed.

Lemma first_hit_clean m T j :
  take j T = m ++ delimiter →
  (∀ k, 0 < k < j → endsWith (take k T) delimiter = false) →
  delimiter_at_end_only m = true.
Proof.
  intros Htake Hfirst. unfold delimiter_at_end_only. apply forallb_forall.
  intros k Hk. apply in_seq in Hk. apply negb_true_iff.
  assert (length (m ++ delimiter) ≤ j) as Hj.
  { rewrite <- Htake, length_take. lia. }
  rewrite length_app in Hj.
  destruct k as [|k]; [reflexivity|].
  rewrite <- Htake, take_take, Nat.min_l by lia. apply Hfirst. lia.
Qed.

Lemma flat_byte8_take n s :
  flat_map byte8 (take n s) = take (8 * n) (flat_map byte8 s).
Proof.
  revert n. induction s as [|c s IH]; intros n.
  - rewrite take_nil. cbn [flat_map]. rewrite take_nil. reflexivity.
  - destruct n as [|n]; [reflexivity|]. cbn [take].
    change (flat_map byte8 (c :: take n s))
      with (byte8 c ++ flat_map byte8 (take n s)).
    change (flat_map byte8 (c :: s)) with (byte8 c ++ flat_map byte8 s).
    replace (8 * S n) with (8 + 8 * n) by lia.
    rewrite (take_app_add' (byte8 c)) by reflexivity. rewrite IH. reflexivity.
Qed.

(** X13.  [decodeMessage] ends at [Found m] exactly when the least
    significant red bits of the buffer start with the bit string
    [encodeMessage] writes for [m], where [m] has single-byte characters and
    its framed form holds the delimiter at the end only; the bits of the
    later pixels play no part. *)
Theorem found_iff (w : World) (img : ImageData) (m : jsstring) :
  imageData w = Some img →
  ((∃ w', decodeMessage w = Some (Found m, w')) ↔
   byte_values m ∧ delimiter_at_end_only m = true
   ∧ (length m + 9) * 8 ≤ pixels (data img)
   ∧ take ((length m + 9) * 8) (red_lsbs (data img))
     = stringToBinary (m ++ delimiter)).
Proof.
  intros Himg.
  destruct (decodeMessage_extraction w) as (w0 & Hdec & _).
  rewrite Himg in Hdec. unfold extraction in Hdec.
  pose proof (length_red_lsbs (data img)) as HlenB.
  pose proof (length_text_of (red_lsbs (data img))) as HlenT.
  destruct (text_of_bits (red_lsbs (data img))) as [Hbytes Hflat].
  set (B := red_lsbs (data img)) in *. set (text := text_of B) in *.
  change (length delimiter) with 9 in *.
  split.
  - intros [w' Hfound]. rewrite Hfound in Hdec.
    case_decide as Hdata; [discriminate|]. injection Hdec as Hscan _.
    symmetry in Hscan.
    destruct (scan_found_inv [] text m Hscan) as (j & Hj & Hhit & Hfirst & Hm).
    rewrite app_nil_l in Hhit, Hm.
    destruct (endsWith_split _ Hhit) as [Hlen9 Hsplit].
    rewrite <- Hm in Hsplit. change (length delimiter) with 9 in *.
    assert (length m + 9 = j) as Hlenm.
    { apply (f_equal length) in Hsplit.
      rewrite length_app, length_take in Hsplit.
      change (length delimiter) with 9 in Hsplit. lia. }
    assert (byte_values (m ++ delimiter)) as HT.
    { rewrite <- Hsplit. apply Forall_take, Hbytes. }
    split; [apply Forall_app in HT as [HT _]; exact HT|].
    split; [apply (first_hit_clean m text j Hsplit); intros k Hk; apply (Hfirst k Hk)|].
    split; [lia|].
    rewrite stringToBinary_bytes by exact HT.
    rewrite <- Hsplit, flat_byte8_take, Hflat, take_take, Hlenm.
    f_equal. lia.
  - intros (Hm & Hclean & Hcap & Hbits).
    assert (data img ≠ []) as Hdata.
    { intros Hnil. unfold pixels in Hcap. rewrite Hnil in Hcap. simpl in Hcap. lia. }
    rewrite decide_False in Hdec by exact Hdata.
    destruct (framed_bits m Hm) as (Hflat' & _ & HT).
    rewrite Hflat' in Hbits.
    assert (text = (m ++ delimiter) ++ text_of (drop ((length m + 9) * 8) B)) as Htext.
    { unfold text. rewrite <- (take_drop ((length m + 9) * 8) B) at 1.
      rewrite Hbits. apply text_of_app_bytes, HT. }
    exists w0. rewrite Hdec, Htext.
    rewrite (scan_found_app _ _ _ _ (scan_framed m Hclean)). reflexivity.
Qed.

Lemma found_iff_witness :
  let w := world_of 10 8 (embed_spec (stringToBinary (codes "a" ++ delimiter)) (grey 80)) [] in
  (∃ w', decodeMessage w = Some (Found (codes "a"), w')) ↔
   byte_values (codes "a") ∧ delimiter_at_end_only (codes "a") = true
   ∧ (length (codes "a") + 9) * 8
     ≤ pixels (embed_spec (stringToBinary (codes "a" ++ delimiter)) (grey 80))
   ∧ take ((length (codes "a") + 9) * 8)
          (red_lsbs (embed_spec (stringToBinary (codes "a" ++ delimiter)) (grey 80)))
     = stringToBinary (codes "a" ++ delimiter).
Proof.
  apply (found_iff
           (world_of 10 8 (embed_spec (stringToBinary (codes "a" ++ delimiter)) (grey 80)) [])
           {| width := 10; height := 8;
              data := embed_spec (stringToBinary (codes "a" ++ delimiter)) (grey 80) |}).
  reflexivity.
Defined.

(** X14.  [decodeMessage] ends at [Empty] exactly on the buffers of one to
    seven pixels, which hold no complete character. *)
Theorem empty_iff (w : World) (img : ImageData) :
  imageData w = Some img →
  ((∃ w', decodeMessage w = Some (Empty, w')) ↔ 0 < pixels (data img) < 8).
Proof.
  intros Himg.
  destruct (decodeMessage_extraction w) as (w0 & Hdec & _).
  rewrite Himg in Hdec. unfold extraction in Hdec.
  pose proof (length_red_lsbs (data img)) as HlenB.
  pose proof (length_text_of (red_lsbs (data img))) as HlenT.
  remember (text_of (red_lsbs (data img))) as text eqn:Htext.
  case_decide as Hdata.
  - rewrite Hdata. unfold pixels. simpl. split; [|lia].
    intros [w' Hempty]. rewrite Hempty in Hdec. discriminate.
  - assert (0 < length (data img)) by (destruct (data img); [done | simpl; lia]).
    assert (0 < pixels (data img)) by (unfold pixels; lia).
    split.
    + intros [w' Hempty]. rewrite Hempty in Hdec. injection Hdec as Hscan _.
      destruct (scan_cases [] text) as [[m Hfound]|Hnot]; [congruence|].
      rewrite Hnot in Hscan. rewrite app_nil_l in Hscan.
      destruct (decide (0 < length text)); [discriminate|]. lia.
    + intros Hpix. exists w0. rewrite Hdec.
      rewrite (nil_length_inv text) by lia. reflexivity.
Qed.

Lemma empty_iff_witness :
  (∃ w', decodeMessage (world_of 7 1 (grey 7) []) = Some (Empty, w'))
  ↔ 0 < pixels (grey 7) < 8.
Proof.
  apply (empty_iff (world_of 7 1 (grey 7) [])
           {| width := 7; height := 1; data := grey 7 |}).
  reflexivity.
Defined.

(** ** Round trips in general *)

Lemma framed_scan M :
  ∃ m j, scan [] (M ++ delimiter) = Found m
    ∧ take j (M ++ delimiter) = m ++ delimiter
    ∧ length m + 9 = j ∧ j ≤ length M + 9
    ∧ ∀ k, 0 < k < j → endsWith (take k (M ++ delimiter)) delimiter = false.
Proof.
  destruct (scan_hit [] (M ++ delimiter)) as [m Hscan].
  { destruct M; discriminate. }
  { rewrite app_nil_l. apply endsWith_framed. }
  destruct (scan_found_inv [] _ m Hscan) as (j & Hj & Hhit & Hfirst & Hm).
  rewrite app_nil_l in Hhit, Hm.
  destruct (endsWith_split _ Hhit) as [Hlen9 Hsplit]. rewrite <- Hm in Hsplit.
  rewrite length_app in Hj. change (length delimiter) with 9 in *.
  exists m, j. split; [exact Hscan|]. split; [exact Hsplit|].
  split; [|split; [lia | exact Hfirst]].
  apply (f_equal length) in Hsplit. rewrite length_app, length_take, length_app in Hsplit.
  change (length delimiter) with 9 in Hsplit. lia.
Qed.

(** X15.  For every non-empty message of single-byte characters that
    fits, on an opaque buffer of byte values that is an image of the whole
    canvas, embedding succeeds and extraction ends at [Found] of a prefix of
    the message -- never at [NotFound] or [Empty] -- and the prefix is the
    whole message exactly when the framed message holds the delimiter at its
    end only. *)
Theorem roundtrip_prefix (w : World) (img : ImageData) :
  imageData w = Some img → byte_values (data img) →
  width img = canvas_width w → height img = canvas_height w →
  length (data img) = 4 * (canvas_width w * canvas_height w) →
  opaque (data img) = true →
  secretMessage w ≠ [] → byte_values (secretMessage w) →
  (length (secretMessage w) + 9) * 8 ≤ canvas_width w * canvas_height w →
  ∃ m, embed_then_extract w = Some (Embedded, Found m, m)
    ∧ m `prefix_of` secretMessage w
    ∧ (m = secretMessage w ↔ delimiter_at_end_only (secretMessage w) = true).
Proof.
  intros Himg Hdata Hw Hh Hlen Hop Hmsg HM Hcap.
  destruct (embed_then_scan w img Himg Hdata Hw Hh Hlen Hop Hmsg HM Hcap)
    as [rest Hrt].
  destruct (framed_scan (secretMessage w)) as (m & j & Hscan & Hsplit & Hlenm & Hj & Hfirst).
  exists m. split; [apply Hrt, scan_found_app, Hscan|].
  assert (m = take (length m) (secretMessage w)) as Hm.
  { rewrite <- (take_app_le (secretMessage w) delimiter) by lia.
    rewrite <- (take_app_length m delimiter) at 1. rewrite <- Hsplit.
    rewrite take_take. f_equal. lia. }
  split.
  - exists (drop (length m) (secretMessage w)).
    transitivity (take (length m) (secretMessage w)
                  ++ drop (length m) (secretMessage w));
      [symmetry; apply take_drop | f_equal; symmetry; exact Hm].
  - split.
    + intros Heq. apply (first_hit_clean _ (secretMessage w ++ delimiter) j);
        [|exact Hfirst]. rewrite Hsplit, Heq. reflexivity.
    + intros Hclean. rewrite (scan_framed _ Hclean) in Hscan. congruence.
Qed.

Lemma roundtrip_prefix_witness :
  ∃ m, embed_then_extract (world_of 16 11 (opaque_grey 176) (codes "x|||END"))
       = Some (Embedded, Found m, m)
    ∧ m `prefix_of` codes "x|||END"
    ∧ (m = codes "x|||END" ↔ delimiter_at_end_only (codes "x|||END") = true).
Proof.
  apply (roundtrip_prefix (world_of 16 11 (opaque_grey 176) (codes "x|||END"))
           {| width := 16; height := 11; data := opaque_grey 176 |});
    [reflexivity | vm_compute; repeat constructor | reflexivity | reflexivity
    | reflexivity | reflexivity | discriminate
    | vm_compute; repeat constructor | vm_compute; lia].
Defined.

(** X16.  The last embedding wins: after a successful [encodeMessage], on
    an opaque buffer that is an image of the whole canvas, a second message
    typed into the field -- non-empty, of single-byte characters, with the
    delimiter at the end of its framed form only, and fitting -- is embedded
    and extracted as itself, whatever the first message was. *)
Theorem second_embedding_wins (w w1 : World) (img : ImageData) (M2 : jsstring) :
  buffer_ok w → imageData w = Some img → opaque (data img) = true →
  encodeMessage w = Some (Embedded, w1) →
  M2 ≠ [] → byte_values M2 → delimiter_at_end_only M2 = true →
  (length M2 + 9) * 8 ≤ canvas_width w * canvas_height w →
  embed_then_extract (set_secretMessage M2 w1) = Some (Embedded, Found M2, M2).
Proof.
  intros Hok Himg Hop Henc Hne Hbytes Hclean Hcap.
  destruct (Hok img Himg) as (Hw & Hh & Hlen & Hdata).
  pose proof (encodeMessage_embedded_lossless w w1 img Himg Henc Hw Hh Hlen Hdata Hop)
    as Hbuf.
  destruct (encodeMessage_fields w _ w1 Henc) as (_ & Hcw & Hch & _).
  edestruct (embed_then_scan (set_secretMessage M2 w1)) as [rest Hrt].
  - exact Hbuf.
  - cbn [data]. apply byte_values_embed_spec, Hdata.
  - cbn [width set_secretMessage canvas_width]. rewrite Hcw. reflexivity.
  - cbn [height set_secretMessage canvas_height]. rewrite Hch. reflexivity.
  - cbn [data set_secretMessage canvas_width canvas_height].
    rewrite length_embed_spec, Hcw, Hch. exact Hlen.
  - cbn [data]. apply opaque_embed_spec, Hop.
  - exact Hne.
  - exact Hbytes.
  - cbn [set_secretMessage secretMessage canvas_width canvas_height].
    rewrite Hcw, Hch. exact Hcap.
  - apply Hrt. cbn [set_secretMessage secretMessage].
    apply scan_found_app, scan_framed, Hclean.
Qed.

Lemma second_embedding_wins_witness :
  let w := world_of 10 10 (opaque_grey 100) (codes "one") in
  ∃ w1, encodeMessage w = Some (Embedded, w1)
    ∧ embed_then_extract (set_secretMessage (codes "2") w1)
      = Some (Embedded, Found (codes "2"), codes "2").
Proof.
  intros w. destruct (encodeMessage w) as [[o w1]|] eqn:Henc; [|vm_compute in Henc; discriminate].
  destruct o; try (vm_compute in Henc; discriminate).
  exists w1. split; [reflexivity|].
  apply (second_embedding_wins w w1
           {| width := 10; height := 10; data := opaque_grey 100 |} (codes "2"));
    [intros img [= <-]; vm_compute; repeat split; repeat constructor
    | reflexivity | reflexivity | exact Henc | discriminate
    | vm_compute; repeat constructor | reflexivity | vm_compute; lia].
Defined.

(** ** The canvas on pixels that are not opaque *)

(** An opaque pixel comes back as it was put; a transparent one as zeros;
    one of alpha 200 with red 12 comes back with red 11. *)
Example canvas_pixels :
  canvas_get 1 1 (canvas_put {| width := 1; height := 1;
                                data := [129; 7; 7; 255]%N |} 1 1 [])
  = [129; 7; 7; 255]%N
  ∧ canvas_get 1 1 (canvas_put {| width := 1; height := 1;
                                  data := [1; 0; 0; 0]%N |} 1 1 [])
    = [0; 0; 0; 0]%N
  ∧ canvas_get 1 1 (canvas_put {| width := 1; height := 1;
                                  data := [12; 13; 13; 200]%N |} 1 1 [])
    = [11; 13; 13; 200]%N.
Proof. vm_compute. repeat split. Qed.

(** An image smaller than the canvas replaces the pixels it covers only. *)
Example canvas_partly_covered :
  canvas_get 2 1 (canvas_put {| width := 1; height := 1;
                                data := [7; 8; 9; 255]%N |} 2 1
                             [1; 2; 3; 255; 4; 5; 6; 255]%N)
  = [7; 8; 9; 255; 4; 5; 6; 255]%N.
Proof. vm_compute. reflexivity. Qed.

(** On a fully transparent buffer the embedding is reported as done, the
    canvas keeps none of the bits, and extraction reads twelve NUL
    characters. *)
Example transparent_buffer_keeps_no_bit :
  embed_then_extract (world_of 10 10 (replicate 400 0%N) (codes "Hi"))
  = Some (Embedded, NotFound (replicate 12 0%N),
          codes "Partial message (no delimiter found): " ++ replicate 12 0%N).
Proof. vm_compute. reflexivity. Qed.
